(** * Martini: request context dispatch and return-value handling

    A shallow embedding of [martini.go] (the [Martini] application value,
    the per-request [context], its [handler] / [Next] / [Written] / [run]
    methods and [createContext]) and of [return_handler.go]
    ([defaultReturnHandler], [isByteSlice], [canDeref]).

    Handlers are Go closures.  They are embedded as straight-line programs
    over the operations a handler can perform on the services it receives:
    observable work, [c.Next()], writes to the response writer, mapping a
    service on the request container, and panicking.  A ghost [trace]
    records what happened in which order. *)

From Stdlib Require Import ZArith Lia.
From Stdlib Require Import Strings.String Strings.Byte Sorting.Sorted.
From stdpp Require Import gmap strings list fin_maps.

Local Open Scope Z_scope.

(** ** Package [reflect] (Go standard library): the part the code uses *)

Module reflect.

Inductive Kind :=
| Invalid | Bool | Int | Int64 | Uint8 | Float64
| String | Slice | Ptr | Interface | Struct | Map | Func.

Definition Kind_eqb (a b : Kind) : bool :=
  match a, b with
  | Invalid, Invalid | Bool, Bool | Int, Int | Int64, Int64
  | Uint8, Uint8 | Float64, Float64 | String, String | Slice, Slice
  | Ptr, Ptr | Interface, Interface | Struct, Struct | Map, Map
  | Func, Func => true
  | _, _ => false
  end.

(** Kinds of values that the return handler only ever prints by type. *)
Inductive PlainKind := PBool | PInt64 | PUint8 | PFloat64 | PStruct | PMap | PFunc.

Definition kind_of_plain (p : PlainKind) : Kind :=
  match p with
  | PBool => Bool | PInt64 => Int64 | PUint8 => Uint8 | PFloat64 => Float64
  | PStruct => Struct | PMap => Map | PFunc => Func
  end.

(** Element kinds of slices other than [[]byte]. *)
Inductive ElemKind := EBool | EInt | EInt64 | EString | EStruct | EPtr.

Definition kind_of_elem (e : ElemKind) : Kind :=
  match e with
  | EBool => Bool | EInt => Int | EInt64 => Int64 | EString => String
  | EStruct => Struct | EPtr => Ptr
  end.

(** A [reflect.Value].  [Zero] is the zero Value ([reflect.Value{}], what
    [var v reflect.Value] declares).  A nil pointer or nil interface has
    [Zero] as its target.  [ty] is the printed name of the value's type. *)
Inductive Value :=
| Zero
| OfInt (n : Z)
| OfString (s : string)
| OfBytes (b : list byte)
| OfPtr (ty : string) (target : Value)
| OfInterface (ty : string) (dyn : Value)
| OfSlice (elem : ElemKind) (ty : string)
| OfPlain (k : PlainKind) (ty : string).

Definition kind (v : Value) : Kind :=
  match v with
  | Zero => Invalid
  | OfInt _ => Int
  | OfString _ => String
  | OfBytes _ => Slice
  | OfPtr _ _ => Ptr
  | OfInterface _ _ => Interface
  | OfSlice _ _ => Slice
  | OfPlain k _ => kind_of_plain k
  end.

(** [v.Type().Elem().Kind()], asked of slices only. *)
Definition elem_kind (v : Value) : Kind :=
  match v with
  | OfBytes _ => Uint8
  | OfSlice e _ => kind_of_elem e
  | _ => Invalid
  end.

(** [v.Type().String()]. *)
Definition type_name (v : Value) : string :=
  match v with
  | Zero => "invalid"
  | OfInt _ => "int"
  | OfString _ => "string"
  | OfBytes _ => "[]uint8"
  | OfPtr ty _ | OfInterface ty _ | OfSlice _ ty | OfPlain _ ty => ty
  end.

(** [v.Elem()]: the value an interface holds or a pointer points to; the
    zero Value for nil.  Only called under [canDeref]. *)
Definition Elem (v : Value) : Value :=
  match v with
  | OfPtr _ t | OfInterface _ t => t
  | _ => Zero
  end.

(** [v.String()] does not panic on other kinds: it returns the string of
    a String value and ["<T Value>"] for a value of any other type [T],
    ["<invalid Value>"] for the zero Value. *)
Definition String_ (v : Value) : string :=
  match v with
  | OfString s => s
  | _ => "<" +:+ type_name v +:+ " Value>"
  end.

(** [v.Bytes()], called under [isByteSlice] only. *)
Definition Bytes (v : Value) : list byte :=
  match v with
  | OfBytes b => b
  | _ => []
  end.

(** [v.Int()], called on values of kind [Int] only. *)
Definition Int_ (v : Value) : Z :=
  match v with
  | OfInt n => n
  | _ => 0
  end.

End reflect.

(** [[]byte(s)]: the bytes of a Go string. *)
Definition bytes_of_string (s : string) : list byte := list_byte_of_string s.

(** ** The response writer *)

(** One call made on an [http.ResponseWriter]. *)
Inductive SinkCall :=
| CallWriteHeader (code : Z)
| CallWrite (b : list byte).

(** Modelled from the spec: the decorated response writer
    ([ResponseWriter], [NewResponseWriter] of response_writer.go, which is
    not among the sources).  The spec fixes its boundary only: a write
    destination with the standard write and status operations and a
    monotonic "written" signal.  The model keeps the calls received, oldest
    first, over the writer it decorates; it reports "written" once it has
    received any. *)
Record ResponseWriter := mkResponseWriter {
  underlying : string;
  calls : list SinkCall
}.

Definition NewResponseWriter (res : string) : ResponseWriter :=
  {| underlying := res; calls := [] |}.

Definition rw_Written (rw : ResponseWriter) : bool :=
  match calls rw with [] => false | _ :: _ => true end.

Definition rw_WriteHeader (code : Z) (rw : ResponseWriter) : ResponseWriter :=
  {| underlying := underlying rw; calls := calls rw ++ [CallWriteHeader code] |}.

Definition rw_Write (b : list byte) (rw : ResponseWriter) : ResponseWriter :=
  {| underlying := underlying rw; calls := calls rw ++ [CallWrite b] |}.

(** ** Services and the injector *)

Record Request := mkRequest { Method : string; Path : string }.

(** What a container holds.  [SvcContext] and [SvcResponseWriter] are
    references: they denote the request context that owns the container
    and that context's response writer, so a call made through them acts
    on the live objects. *)
Inductive Service :=
| SvcContext
| SvcResponseWriter
| SvcRequest (r : Request)
| SvcLogger (prefix : string)
| SvcReturnHandler
| SvcOther (ty : string) (tag : string).

(** [reflect.TypeOf(v)], printed. *)
Definition concrete_type (v : Service) : string :=
  match v with
  | SvcContext => "*martini.context"
  | SvcResponseWriter => "*martini.responseWriter"
  | SvcRequest _ => "*http.Request"
  | SvcLogger _ => "*log.Logger"
  | SvcReturnHandler => "martini.ReturnHandler"
  | SvcOther ty _ => ty
  end.

Definition ty_Context : string := "martini.Context".
Definition ty_ResponseWriter : string := "http.ResponseWriter".

Module inject.

(** Modelled from the spec: the service container (package
    github.com/codegangsta/inject, not among the sources), as the spec's
    section on the Service Container describes it: a type-keyed store
    with an optional parent that is read through on a miss. *)
Inductive Injector :=
| Root (values : gmap string Service)
| Child (values : gmap string Service) (parent : Injector).

Definition New : Injector := Root ∅.

Definition values (i : Injector) : gmap string Service :=
  match i with Root v | Child v _ => v end.

Definition parent (i : Injector) : option Injector :=
  match i with Root _ => None | Child _ p => Some p end.

(** [MapTo(value, asType)]: stores under the given type identity, in
    this container, over any earlier mapping for it. *)
Definition MapTo (v : Service) (key : string) (i : Injector) : Injector :=
  match i with
  | Root vals => Root (<[key := v]> vals)
  | Child vals p => Child (<[key := v]> vals) p
  end.

(** [Map(value)]: stores under the value's concrete type. *)
Definition Map (v : Service) (i : Injector) : Injector :=
  MapTo v (concrete_type v) i.

Definition SetParent (p : Injector) (i : Injector) : Injector :=
  Child (values i) p.

(** [Get(type)]: this container, else the parent, else nothing. *)
Fixpoint Get (i : Injector) (key : string) : option Service :=
  match i with
  | Root vals => vals !! key
  | Child vals p =>
      match vals !! key with
      | Some v => Some v
      | None => Get p key
      end
  end.

(** Resolution of a parameter list, left to right: the services, or the
    first type that has no mapping. *)
Fixpoint resolve (i : Injector) (params : list string)
  : string + list Service :=
  match params with
  | [] => inr []
  | p :: ps =>
      match Get i p with
      | None => inl p
      | Some v =>
          match resolve i ps with
          | inl e => inl e
          | inr vs => inr (v :: vs)
          end
      end
  end.

End inject.

(** ** Handlers *)

(** What a handler body does, in order.  The body reaches the context and
    the response writer through the services injected as its arguments. *)
Inductive Op :=
| Work (x : string)
| CallNext
| Write (b : list byte)
| WriteHeader (code : Z)
| MapTo (v : Service) (key : string)
| Panic (msg : string).

(** A callable: the types of its parameters, its body, and the values it
    returns. *)
Record Handler := mkHandler {
  params : list string;
  body : list Op;
  results : list reflect.Value
}.

(** ** The request context *)

(** Ghost record of what happened during a request: the handler [h] was
    called while the cursor was [i]; a body did work [x]; a body called
    [Next()]; the response writer received a call. *)
Inductive Event :=
| EInvoke (i : Z) (h : Handler)
| EWork (x : string)
| ENext
| ESink (call : SinkCall).

(** [type context struct].  [index] is a Go [int].  It starts at 0 and is
    only ever incremented, once after an invocation and once per [Next()]:
    it advances at most once per event of the trace ([run_settled]), so the
    64-bit bound is out of reach of any run and the cursor is kept as an
    integer.  [trace] is ghost state. *)
Record context := mkContext {
  Injector : inject.Injector;
  handlers : list Handler;
  action : Handler;
  rw : ResponseWriter;
  index : Z;
  trace : list Event
}.

Definition set_index (i : Z) (c : context) : context :=
  mkContext (Injector c) (handlers c) (action c) (rw c) i (trace c).

Definition set_Injector (j : inject.Injector) (c : context) : context :=
  mkContext j (handlers c) (action c) (rw c) (index c) (trace c).

Definition log (e : Event) (c : context) : context :=
  mkContext (Injector c) (handlers c) (action c) (rw c) (index c)
            (trace c ++ [e]).

(** A call on the context's response writer. *)
Definition sink (call : SinkCall) (c : context) : context :=
  let rw' := match call with
             | CallWriteHeader code => rw_WriteHeader code (rw c)
             | CallWrite b => rw_Write b (rw c)
             end in
  mkContext (Injector c) (handlers c) (action c) rw' (index c)
            (trace c ++ [ESink call]).

Inductive Fault :=
| UnresolvedDependency (ty : string)
| InvalidIndex
| IndexOutOfRange
| HandlerPanic (msg : string)
| NoResponseWriter.

Inductive Outcome :=
| Returned (c : context)
| Panicked (e : Fault) (c : context)
| OutOfFuel.

Definition len (hs : list Handler) : Z := Z.of_nat (length hs).

(** [func (c *context) handler() Handler] *)
Definition handler (c : context) : Fault + Handler :=
  if index c <? len (handlers c) then
    if index c <? 0 then inl IndexOutOfRange
    else match handlers c !! Z.to_nat (index c) with
         | Some h => inr h
         | None => inl IndexOutOfRange
         end
  else if index c =? len (handlers c) then inr (action c)
  else inl InvalidIndex.

(** [func (c *context) Written() bool] *)
Definition Written (c : context) : bool := rw_Written (rw c).

(** The body of a handler, run on the live context.  [next] is what
    [c.Next()] does. *)
Fixpoint call (next : context -> Outcome) (ops : list Op) (c : context)
  : Outcome :=
  match ops with
  | [] => Returned c
  | op :: rest =>
      match op with
      | Work x => call next rest (log (EWork x) c)
      | CallNext =>
          match next c with
          | Returned c' => call next rest c'
          | o => o
          end
      | Write b => call next rest (sink (CallWrite b) c)
      | WriteHeader code => call next rest (sink (CallWriteHeader code) c)
      | MapTo v key =>
          call next rest (set_Injector (inject.MapTo v key (Injector c)) c)
      | Panic msg => Panicked (HandlerPanic msg) c
      end
  end.

Inductive InvokeResult :=
| InvokeOk (vals : list reflect.Value) (c : context)
| InvokeErr (e : Fault)
| InvokePanic (e : Fault) (c : context)
| InvokeOutOfFuel.

(** Modelled from the spec: [Invoke] of the service container, on the
    context's own container: every declared parameter type is resolved
    with [Get]; when one has no mapping the call fails with that error
    and the callable is never called; otherwise it is called and its
    return values are handed back. *)
Definition Invoke (next : context -> Outcome) (h : Handler) (c : context)
  : InvokeResult :=
  match inject.resolve (Injector c) (params h) with
  | inl ty => InvokeErr (UnresolvedDependency ty)
  | inr _ =>
      match call next (body h) (log (EInvoke (index c) h) c) with
      | Returned c' => InvokeOk (results h) c'
      | Panicked e c' => InvokePanic e c'
      | OutOfFuel => InvokeOutOfFuel
      end
  end.

(** [func (c *context) Next()], over the driving loop it re-enters. *)
Definition Next_over (run : context -> Outcome) (c : context) : Outcome :=
  run (set_index (index c + 1) (log ENext c)).

(** [func (c *context) run()].  [fuel] bounds the handler invocations. *)
Fixpoint run (fuel : nat) (c : context) : Outcome :=
  if index c <=? len (handlers c) then
    match fuel with
    | O => OutOfFuel
    | S fuel' =>
        match handler c with
        | inl e => Panicked e c
        | inr h =>
            match Invoke (Next_over (run fuel')) h c with
            | InvokeErr err => Panicked err c
            | InvokePanic e c' => Panicked e c'
            | InvokeOutOfFuel => OutOfFuel
            | InvokeOk _ c1 =>
                let c2 := set_index (index c1 + 1) c1 in
                if Written c2 then Returned c2 else run fuel' c2
            end
        end
    end
  else Returned c.

Definition Next (fuel : nat) (c : context) : Outcome :=
  Next_over (run fuel) c.

(** ** The application *)

(** [type Martini struct] *)
Record Martini := mkMartini {
  m_Injector : inject.Injector;
  m_handlers : list Handler;
  m_action : Handler;
  m_logger : Service
}.

(** [func New() *Martini] *)
Definition New : Martini :=
  let logger := SvcLogger "[martini] " in
  let inj := inject.Map logger inject.New in
  let inj := inject.Map SvcReturnHandler inj in
  mkMartini inj [] (mkHandler [] [] []) logger.

(** [func (m *Martini) Use(handler Handler)].  A [Handler] here is a
    callable by its type, so [validateHandler] has nothing to reject. *)
Definition Use (h : Handler) (m : Martini) : Martini :=
  mkMartini (m_Injector m) (m_handlers m ++ [h]) (m_action m) (m_logger m).

(** [func (m *Martini) Handlers(handlers ...Handler)] *)
Definition Handlers (hs : list Handler) (m : Martini) : Martini :=
  fold_left (fun m h => Use h m) hs
            (mkMartini (m_Injector m) [] (m_action m) (m_logger m)).

(** [func (m *Martini) Action(handler Handler)] *)
Definition Action (h : Handler) (m : Martini) : Martini :=
  mkMartini (m_Injector m) (m_handlers m) h (m_logger m).

(** [func (m *Martini) createContext(res, req) *context] *)
Definition createContext (m : Martini) (res : string) (req : Request)
  : context :=
  let c := mkContext inject.New (m_handlers m) (m_action m)
                     (NewResponseWriter res) 0 [] in
  let c := set_Injector (inject.SetParent (m_Injector m) (Injector c)) c in
  let c := set_Injector (inject.MapTo SvcContext ty_Context (Injector c)) c in
  let c := set_Injector
             (inject.MapTo SvcResponseWriter ty_ResponseWriter (Injector c)) c in
  let c := set_Injector (inject.Map (SvcRequest req) (Injector c)) c in
  c.

(** [func (m *Martini) ServeHTTP(res, req)] *)
Definition ServeHTTP (fuel : nat) (m : Martini) (res : string) (req : Request)
  : Outcome :=
  run fuel (createContext m res req).

(** ** The default return handler *)

(** [func isByteSlice(val reflect.Value) bool] *)
Definition isByteSlice (val : reflect.Value) : bool :=
  reflect.Kind_eqb (reflect.kind val) reflect.Slice
  && reflect.Kind_eqb (reflect.elem_kind val) reflect.Uint8.

(** [func canDeref(val reflect.Value) bool] *)
Definition canDeref (val : reflect.Value) : bool :=
  reflect.Kind_eqb (reflect.kind val) reflect.Interface
  || reflect.Kind_eqb (reflect.kind val) reflect.Ptr.

(** The closure [defaultReturnHandler()] returns.  [res] is the service
    mapped to [http.ResponseWriter]; the conversion of an unmapped or
    foreign service panics. *)
Definition defaultReturnHandler (ctx : context) (vals : list reflect.Value)
  : Outcome :=
  match inject.Get (Injector ctx) ty_ResponseWriter with
  | Some SvcResponseWriter =>
      let '(ctx, responseVal) :=
        if (1 <? Z.of_nat (length vals))
           && reflect.Kind_eqb (reflect.kind (nth 0 vals reflect.Zero))
                               reflect.Int
        then
          (sink (CallWriteHeader (reflect.Int_ (nth 0 vals reflect.Zero))) ctx,
           nth 1 vals reflect.Zero)
        else if 0 <? Z.of_nat (length vals) then
          (ctx, nth 0 vals reflect.Zero)
        else (ctx, reflect.Zero) in
      let responseVal :=
        if canDeref responseVal then reflect.Elem responseVal
        else responseVal in
      if isByteSlice responseVal then
        Returned (sink (CallWrite (reflect.Bytes responseVal)) ctx)
      else
        Returned (sink (CallWrite (bytes_of_string (reflect.String_ responseVal)))
                       ctx)
  | _ => Panicked NoResponseWriter ctx
  end.

(** ** Reading traces *)

(** The invocations of a trace, oldest first. *)
Fixpoint invokes (t : list Event) : list (Z * Handler) :=
  match t with
  | [] => []
  | EInvoke i h :: t' => (i, h) :: invokes t'
  | _ :: t' => invokes t'
  end.

(** [l] with the cursor value of each element, counting from [i]. *)
Fixpoint indexed (i : Z) (l : list Handler) : list (Z * Handler) :=
  match l with
  | [] => []
  | h :: l' => (i, h) :: indexed (i + 1) l'
  end.

(** The whole chain in invocation order: the middleware as registered,
    then the action. *)
Definition chain (c : context) : list Handler := handlers c ++ [action c].

(** The sink has received a call somewhere in [t]. *)
Definition wrote (t : list Event) : Prop := ∃ call, ESink call ∈ t.

(** ** The specification's dispatch loop *)

(** The driving loop as the specification words it: after a handler
    returns, its return values are fed to the return-value interpreter,
    then the cursor is incremented and the written flag tested.  Kept
    apart from [run] to compare the two. *)
Fixpoint run_as_specified (fuel : nat) (c : context) : Outcome :=
  if index c <=? len (handlers c) then
    match fuel with
    | O => OutOfFuel
    | S fuel' =>
        match handler c with
        | inl e => Panicked e c
        | inr h =>
            match Invoke (Next_over (run_as_specified fuel')) h c with
            | InvokeErr err => Panicked err c
            | InvokePanic e c' => Panicked e c'
            | InvokeOutOfFuel => OutOfFuel
            | InvokeOk vals c1 =>
                match defaultReturnHandler c1 vals with
                | Returned c1' =>
                    let c2 := set_index (index c1' + 1) c1' in
                    if Written c2 then Returned c2
                    else run_as_specified fuel' c2
                | o => o
                end
            end
        end
    end
  else Returned c.

(** ** What the return handler writes for one value *)

(** The body written for a return value: dereferenced once if it is an
    interface or a pointer, then its bytes if it is a byte slice and its
    [String()] otherwise. *)
Definition rendered (v : reflect.Value) : list byte :=
  let v := if canDeref v then reflect.Elem v else v in
  if isByteSlice v then reflect.Bytes v
  else bytes_of_string (reflect.String_ v).

(** The context resolves [http.ResponseWriter] to its own writer, as
    [createContext] sets it up. *)
Definition has_sink (c : context) : Prop :=
  inject.Get (Injector c) ty_ResponseWriter = Some SvcResponseWriter.

(** ** Sample requests *)

Definition GET_root : Request := mkRequest "GET" "/".

(** A handler without parameters or results. *)
Definition plain (ops : list Op) : Handler := mkHandler [] ops [].

(** [func Logger() Handler]: the middleware that logs the request as it
    comes in, calls [c.Next()], and logs the response as it goes out. *)
Definition Logger : Handler :=
  mkHandler [ty_ResponseWriter; "*http.Request"; ty_Context; "*log.Logger"]
            [Work "Started"; CallNext; Work "Completed"]
            [].

(** The context of a request to a bare application over the given
    middleware and action. *)
Definition fresh (hs : list Handler) (a : Handler) : context :=
  createContext (Action a (Handlers hs New)) "w" GET_root.

(** ** Properties of traces *)

(** The cursor values at which handlers were called, oldest first. *)
Definition cursors (t : list Event) : list Z := (invokes t).*1.

(** What the cursor invariant promises of a state [c'] reached from [c]:
    the cursor has not decreased, handlers were called at strictly
    increasing cursor values, and each of those lies within the chain. *)
Definition cursor_ok (c c' : context) : Prop :=
  index c ≤ index c'
  ∧ StronglySorted Z.lt (cursors (trace c'))
  ∧ Forall (λ j, 0 ≤ j ≤ len (handlers c)) (cursors (trace c')).

(** The faults of [handler()] and of the slice access in it. *)
Definition index_fault (e : Fault) : Prop :=
  e = InvalidIndex ∨ e = IndexOutOfRange.

(** No handler is called once the sink has received a call. *)
Definition no_invoke_after_write (t : list Event) : Prop :=
  ∀ t1 i h t2, t = t1 ++ EInvoke i h :: t2 → ¬ wrote t1.

(** A handler called once the sink has received a call is called by a
    [Next()] made just before: the loop itself does not call one. *)
Definition only_Next_after_write (t : list Event) : Prop :=
  ∀ t1 i h t2, t = t1 ++ EInvoke i h :: t2 → wrote t1 →
               ∃ t0, t1 = t0 ++ [ENext].

(** The cursor invariant relative to the state [c0] the loop was entered
    in.  At the loop head every handler called so far was called below
    the cursor ([strict]); inside a body the last one was called at most
    at the cursor. *)
Definition cursor_inv (strict : bool) (c0 c : context) : Prop :=
  index c0 ≤ index c
  ∧ handlers c = handlers c0
  ∧ StronglySorted Z.lt (cursors (trace c))
  ∧ Forall (λ j, (0 ≤ j ≤ len (handlers c0))
                 ∧ if strict then j < index c else j ≤ index c)
           (cursors (trace c)).

(** The written-flag invariant: the flag is up whenever the trace holds a
    call on the sink; handlers called after such a call were called by
    [Next()]; and at the loop head ([head]) a trace that holds such a call
    ends in the [Next()] that re-entered the loop. *)
Definition write_inv (head : bool) (c : context) : Prop :=
  (wrote (trace c) → Written c = true)
  ∧ only_Next_after_write (trace c)
  ∧ (if head then wrote (trace c) → ∃ t0, trace c = t0 ++ [ENext] else True).

(** ** Orderly chains *)

(** The operation does not touch the response writer. *)
Definition silent (op : Op) : bool :=
  match op with Write _ | WriteHeader _ => false | _ => true end.

(** The operation does not panic. *)
Definition calm (op : Op) : bool :=
  match op with Panic _ => false | _ => true end.

(** Every parameter of [h] has a mapping in [i] or an ancestor. *)
Definition resolvable (i : inject.Injector) (h : Handler) : Prop :=
  ∀ p, p ∈ params h → is_Some (inject.Get i p).

(** From cursor [k] on, no middleware writes to the response writer, no
    handler panics, and every parameter resolves in [c]'s container. *)
Definition orderly_from (c : context) (k : Z) : Prop :=
  ∀ j h, k ≤ j → chain c !! Z.to_nat j = Some h →
         (j < len (handlers c) → forallb silent (body h) = true)
         ∧ forallb calm (body h) = true
         ∧ resolvable (Injector c) h.

(** The same, decided. *)
Definition resolves (i : inject.Injector) (p : string) : bool :=
  match inject.Get i p with Some _ => true | None => false end.

Definition orderly_at (c : context) (jh : Z * Handler) : bool :=
  (if jh.1 <? len (handlers c) then forallb silent (body jh.2) else true)
  && forallb calm (body jh.2)
  && forallb (resolves (Injector c)) (params jh.2).

Definition orderly (c : context) (k : Z) : bool :=
  forallb (orderly_at c) (drop (Z.to_nat k) (indexed 0 (chain c))).

(** The chain elements with their cursor values, from cursor [lo] up to
    but not including [hi]. *)
Definition span (ch : list Handler) (lo hi : Z) : list (Z * Handler) :=
  take (Z.to_nat (hi - lo)) (drop (Z.to_nat lo) (indexed 0 ch)).

(** The invariant of an orderly run entered in state [c0]: the chain is
    unchanged, parameters still resolve, the handlers called since [c0]
    are those from its cursor to the current one, in order, and only the
    action can have written.  [head] tells the loop head from the inside
    of a body, where [ops] are left to do. *)
Definition quiet_inv (head : bool) (c0 : context) (ops : list Op)
  (c : context) : Prop :=
  handlers c = handlers c0 ∧ action c = action c0
  ∧ (∀ j h, index c0 ≤ j → chain c0 !! Z.to_nat j = Some h →
            resolvable (Injector c) h)
  ∧ index c0 ≤ index c
  ∧ (Written c = true →
     if head then len (handlers c0) < index c
     else len (handlers c0) ≤ index c)
  ∧ invokes (trace c)
    = invokes (trace c0)
      ++ span (chain c0) (index c0) (if head then index c else index c + 1)
  ∧ (if head then True
     else forallb calm ops = true
          ∧ (forallb silent ops = true ∨ len (handlers c0) ≤ index c)).

(** ** Return values *)

(** [h] with other return values. *)
Definition returning (g : Handler → list reflect.Value) (h : Handler)
  : Handler :=
  mkHandler (params h) (body h) (g h).

Definition returning_event (g : Handler → list reflect.Value) (e : Event)
  : Event :=
  match e with
  | EInvoke i h => EInvoke i (returning g h)
  | _ => e
  end.

(** The context over the chain whose handlers return what [g] says. *)
Definition returning_context (g : Handler → list reflect.Value)
  (c : context) : context :=
  mkContext (Injector c) (returning g <$> handlers c)
            (returning g (action c)) (rw c) (index c)
            (returning_event g <$> trace c).

Definition returning_outcome (g : Handler → list reflect.Value)
  (o : Outcome) : Outcome :=
  match o with
  | Returned c => Returned (returning_context g c)
  | Panicked e c => Panicked e (returning_context g c)
  | OutOfFuel => OutOfFuel
  end.

(** The operation is not a call of [Next()]. *)
Definition stays (op : Op) : bool :=
  match op with CallNext => false | _ => true end.

(** No handler of the chain calls [Next()]. *)
Definition nextless (c : context) : bool :=
  forallb (λ h, forallb stays (body h)) (chain c).

(** The invariant of a run over a chain without [Next()] calls, entered
    in [c0]: the trace records none. *)
Definition nextless_inv (c0 : context) (ops : list Op) (c : context) : Prop :=
  handlers c = handlers c0 ∧ action c = action c0
  ∧ (ENext ∉ trace c)
  ∧ forallb stays ops = true.

(** ** Predicates on outcomes *)

(** [c'] comes after [c]: the cursor has not moved back, it has advanced
    at most once per event recorded since, and the chain is the same. *)
Definition after (c c' : context) : Prop :=
  index c ≤ index c'
  ∧ index c' - index c
    ≤ Z.of_nat (length (trace c')) - Z.of_nat (length (trace c))
  ∧ handlers c' = handlers c ∧ action c' = action c.

(** The outcome is a result, in a state that comes after [c]. *)
Definition settled (c : context) (o : Outcome) : Prop :=
  match o with
  | Returned c' | Panicked _ c' => after c c'
  | OutOfFuel => False
  end.

(** [Q] holds if the loop returns, [F] if it panics. *)
Definition sat (Q : context → Prop) (F : Fault → context → Prop)
  (o : Outcome) : Prop :=
  match o with
  | Returned c => Q c
  | Panicked e c => F e c
  | OutOfFuel => True
  end.

(** Invocations the loop can make from [c] on: there is fuel for them. *)
Definition enough (fuel : nat) (c : context) : Prop :=
  len (handlers c) + 1 - index c ≤ Z.of_nat fuel.

(** ** Registration of arbitrary values *)

(** [type Handler interface{}]: what can be handed to [Use], [Handlers]
    and [Action] is any value.  A function is a callable [Handler] of the
    model; of other values only the kind matters. *)
Inductive DataKind := DBool | DInt | DString | DSlice | DPtr | DStruct | DMap.

Definition kind_of_data (k : DataKind) : reflect.Kind :=
  match k with
  | DBool => reflect.Bool | DInt => reflect.Int | DString => reflect.String
  | DSlice => reflect.Slice | DPtr => reflect.Ptr | DStruct => reflect.Struct
  | DMap => reflect.Map
  end.

Inductive HandlerValue :=
| Nil
| Func (h : Handler)
| Data (k : DataKind).

(** The two panics of registration: the one [validateHandler] raises, and
    the nil dereference of [reflect.TypeOf(nil).Kind()]. *)
Inductive SetupFault :=
| NotCallable
| NilDereference.

(** [reflect.TypeOf(v).Kind()]; [reflect.TypeOf(nil)] is the nil [Type]. *)
Definition TypeOf_Kind (v : HandlerValue) : option reflect.Kind :=
  match v with
  | Nil => None
  | Func _ => Some reflect.Func
  | Data k => Some (kind_of_data k)
  end.

(** [func validateHandler(handler Handler)]: the panic, if any. *)
Definition validateHandler (v : HandlerValue) : option SetupFault :=
  match TypeOf_Kind v with
  | None => Some NilDereference
  | Some k =>
      if negb (reflect.Kind_eqb k reflect.Func) then Some NotCallable
      else None
  end.

(** The callable a validated value is. *)
Definition as_func (v : HandlerValue) : Handler :=
  match v with Func h => h | _ => plain [] end.

(** A registration call returns, or panics with the application as the
    call left it: [m] is a pointer, what was assigned before the panic
    stays. *)
Inductive Setup :=
| Done (m : Martini)
| Failed (e : SetupFault) (m : Martini).

(** [func (m *Martini) Use(handler Handler)], on any value. *)
Definition Use_value (v : HandlerValue) (m : Martini) : Setup :=
  match validateHandler v with
  | Some e => Failed e m
  | None => Done (Use (as_func v) m)
  end.

(** The loop of [Handlers]. *)
Fixpoint Use_values (vs : list HandlerValue) (m : Martini) : Setup :=
  match vs with
  | [] => Done m
  | v :: vs' =>
      match Use_value v m with
      | Done m' => Use_values vs' m'
      | failed => failed
      end
  end.

(** [func (m *Martini) Handlers(handlers ...Handler)], on any values. *)
Definition Handlers_values (vs : list HandlerValue) (m : Martini) : Setup :=
  Use_values vs (mkMartini (m_Injector m) [] (m_action m) (m_logger m)).

(** [func (m *Martini) Action(handler Handler)], on any value. *)
Definition Action_value (v : HandlerValue) (m : Martini) : Setup :=
  match validateHandler v with
  | Some e => Failed e m
  | None => Done (Action (as_func v) m)
  end.



(** [os.Getenv]: the empty string for a variable that is not set. *)
Definition Getenv (env : gmap string string) (key : string) : string :=
  default "" (env !! key).

(** The address [Run] hands to [RunOnAddr]. *)
Definition Run_addr (env : gmap string string) : string :=
  let port := Getenv env "PORT" in
  let port := if (String.length port =? 0)%nat then "3000" else port in
  let host := Getenv env "HOST" in
  host +:+ ":" +:+ port.





(** ** More invariants of the loop *)

(** No handler of the chain panics and every parameter resolves in [c]. *)
Definition safe_chain (c : context) : bool :=
  forallb (λ h, forallb calm (body h)
                && forallb (resolves (Injector c)) (params h))
          (chain c).

(** The invariant of a run over such a chain, entered in [c0]. *)
Definition safe_inv (c0 : context) (ops : list Op) (c : context) : Prop :=
  handlers c = handlers c0 ∧ action c = action c0
  ∧ 0 ≤ index c
  ∧ (∀ h, h ∈ chain c0 → resolvable (Injector c) h)
  ∧ forallb calm ops = true.

(** As long as nothing is written, the handlers called since [c0] are
    those from its cursor to the current one, in order. *)
Definition full_inv (head : bool) (c0 c : context) : Prop :=
  handlers c = handlers c0 ∧ action c = action c0
  ∧ index c0 ≤ index c
  ∧ (Written c = false →
     invokes (trace c)
     = invokes (trace c0)
       ++ span (chain c0) (index c0) (if head then index c else index c + 1)).

(** Every handler called was the element of the chain at the cursor. *)
Definition from_chain (c0 c : context) : Prop :=
  handlers c = handlers c0 ∧ action c = action c0
  ∧ ∀ i h, (i, h) ∈ invokes (trace c) →
           0 ≤ i ∧ chain c0 !! Z.to_nat i = Some h.

(** No handler of the chain touches the response writer. *)
Definition silent_chain (c : context) : bool :=
  forallb (λ h, forallb silent (body h)) (chain c).

Definition untouched (c0 : context) (ops : list Op) (c : context) : Prop :=
  handlers c = handlers c0 ∧ action c = action c0
  ∧ rw c = rw c0
  ∧ forallb silent ops = true.

(** The trace of [c] continues the trace of [c0]. *)
Definition extends (c0 c : context) : Prop :=
  ∃ t, trace c = trace c0 ++ t.

(** The invariant of a run without [Next()] calls whose first writing
    handler stands at place [k] of the chain: up to there nothing is
    written and the chain is called in order; in the body at [k] either
    the write is still to come or the response is written. *)
Definition stop_inv (head : bool) (c0 : context) (k : Z) (ops : list Op)
  (c : context) : Prop :=
  handlers c = handlers c0 ∧ action c = action c0
  ∧ index c0 ≤ index c ≤ k
  ∧ invokes (trace c)
    = invokes (trace c0)
      ++ span (chain c0) (index c0) (if head then index c else index c + 1)
  ∧ (if head then Written c = false
     else forallb stays ops = true
          ∧ (index c < k → forallb silent ops = true ∧ Written c = false)
          ∧ (index c = k → Written c = true ∨ forallb silent ops = false)).

(** ** Handlers the loop gets past *)






(** ** Basic facts *)

Lemma len_nonneg hs : 0 ≤ len hs.
Proof. unfold len. lia. Qed.

Lemma len_app_one hs (a : Handler) : len (hs ++ [a]) = len hs + 1.
Proof. unfold len. rewrite length_app. simpl. lia. Qed.

Lemma invokes_app t1 t2 : invokes (t1 ++ t2) = invokes t1 ++ invokes t2.
Proof.
  induction t1 as [|e t1 IH]; simpl; [done|].
  destruct e; simpl; by rewrite IH.
Qed.

Lemma indexed_app i l1 l2 :
  indexed i (l1 ++ l2) = indexed i l1 ++ indexed (i + len l1) l2.
Proof.
  revert i. induction l1 as [|h l1 IH]; intros i; simpl.
  - unfold len. simpl. by rewrite Z.add_0_r.
  - rewrite IH. do 3 f_equal. unfold len. simpl length. lia.
Qed.

Lemma indexed_length i l : length (indexed i l) = length l.
Proof. revert i. induction l; intros; simpl; auto. Qed.

(** [handler] succeeds exactly on the cursor values of the chain, and
    picks the chain element at the cursor. *)
Lemma handler_inr c h :
  handler c = inr h →
  0 ≤ index c ≤ len (handlers c) ∧ chain c !! Z.to_nat (index c) = Some h.
Proof.
  unfold handler, chain, len. intros H.
  destruct (index c <? _) eqn:E1.
  - apply Z.ltb_lt in E1.
    destruct (index c <? 0) eqn:E2; [done|]. apply Z.ltb_ge in E2.
    destruct (handlers c !! Z.to_nat (index c)) as [h'|] eqn:E3; [|done].
    inversion H; subst. split; [lia|].
    rewrite lookup_app_l; [done|]. lia.
  - apply Z.ltb_ge in E1.
    destruct (index c =? _) eqn:E2; [|done]. apply Z.eqb_eq in E2.
    inversion H; subst. split; [lia|].
    rewrite E2, Nat2Z.id. rewrite lookup_app_r; [|lia].
    by rewrite Nat.sub_diag.
Qed.

Lemma handler_ok c :
  0 ≤ index c ≤ len (handlers c) → ∃ h, handler c = inr h.
Proof.
  unfold handler, len. intros [H0 HN].
  destruct (index c <? _) eqn:E1.
  - apply Z.ltb_lt in E1.
    destruct (index c <? 0) eqn:E2; [apply Z.ltb_lt in E2; lia|].
    destruct (handlers c !! Z.to_nat (index c)) as [h'|] eqn:E3; [eauto|].
    apply lookup_ge_None in E3. lia.
  - apply Z.ltb_ge in E1.
    assert ((index c =? Z.of_nat (length (handlers c))) = true) as ->
      by (apply Z.eqb_eq; lia).
    eauto.
Qed.

(** The fault [handler] raises past the end of the chain is the only one
    it has for a cursor that is not negative. *)
Lemma handler_inl c e :
  handler c = inl e → 0 ≤ index c → len (handlers c) < index c.
Proof.
  intros H H0.
  destruct (Z_lt_le_dec (len (handlers c)) (index c)) as [|Hle]; [done|].
  destruct (handler_ok c) as [h Hh]; [lia|]. congruence.
Qed.

(** ** The loop always comes back *)

Lemma after_refl c : after c c.
Proof. unfold after. repeat split; lia. Qed.

Lemma settled_trans c1 c2 o : after c1 c2 → settled c2 o → settled c1 o.
Proof.
  unfold after. intros (? & ? & Hh & Ha).
  destruct o as [c'|e c'|]; simpl; [| |done].
  all: intros (? & ? & ? & ?); repeat split; [lia|lia|congruence|congruence].
Qed.

Lemma after_log e c : after c (log e c).
Proof. unfold after. simpl. rewrite length_app. simpl. repeat split; lia. Qed.

Lemma after_sink call c : after c (sink call c).
Proof. unfold after. simpl. rewrite length_app. simpl. repeat split; lia. Qed.

Lemma after_Next c : after c (set_index (index c + 1) (log ENext c)).
Proof. unfold after. simpl. rewrite length_app. simpl. repeat split; lia. Qed.

(** A body comes back when every [Next()] it can make does. *)
Lemma call_settled (r : context → Outcome) hs K :
  (∀ c, handlers c = hs → K ≤ index c → settled c (Next_over r c)) →
  ∀ ops c, handlers c = hs → K ≤ index c → settled c (call (Next_over r) ops c).
Proof.
  intros Hnext. induction ops as [|op rest IH]; intros c Hh HK.
  - apply after_refl.
  - destruct op; simpl.
    + eapply settled_trans; [apply after_log|by apply IH].
    + specialize (Hnext c Hh HK).
      destruct (Next_over r c) as [c'|e c'|]; simpl in *; [|done|done].
      eapply settled_trans; [exact Hnext|].
      destruct Hnext as (? & ? & ? & ?). apply IH; [congruence|lia].
    + eapply settled_trans; [apply after_sink|by apply IH].
    + eapply settled_trans; [apply after_sink|by apply IH].
    + eapply settled_trans; [|by apply IH]. unfold after. simpl.
      repeat split; lia.
    + apply after_refl.
Qed.

(** With fuel for the invocations left, [run] returns or panics, in a
    state that comes after the one it was entered in: the cursor is
    monotone and bounded by the length of the trace. *)
Lemma run_settled fuel : ∀ c, enough fuel c → settled c (run fuel c).
Proof.
  unfold enough.
  induction fuel as [|fuel IH]; intros c Hf.
  - simpl. destruct (index c <=? len (handlers c)) eqn:E.
    + apply Z.leb_le in E. lia.
    + apply after_refl.
  - simpl. destruct (index c <=? len (handlers c)) eqn:E;
      [|apply after_refl].
    apply Z.leb_le in E.
    destruct (handler c) as [e|h] eqn:Eh; [apply after_refl|].
    unfold Invoke.
    destruct (inject.resolve _ _) as [ty|vs]; [apply after_refl|].
    pose proof (call_settled (run fuel) (handlers c)
                  (len (handlers c) - Z.of_nat fuel)) as Hcall.
    specialize (Hcall ltac:(
      intros c0 Hh0 HK0; unfold Next_over;
      eapply settled_trans; [apply after_Next|];
      apply IH; simpl; rewrite Hh0; lia)).
    specialize (Hcall (body h) (log (EInvoke (index c) h) c) eq_refl).
    simpl in Hcall. specialize (Hcall ltac:(lia)).
    destruct (call _ _ _) as [c1|e c1|] eqn:Ec; simpl in Hcall; [| |done].
    + assert (after c (set_index (index c1 + 1) c1)) as Hafter.
      { destruct Hcall as (Hi & Hl & ? & ?). simpl in Hi, Hl.
        rewrite length_app in Hl. simpl in Hl.
        unfold after. simpl. repeat split; try done; lia. }
      destruct (Written _).
      * exact Hafter.
      * eapply settled_trans; [exact Hafter|].
        destruct Hafter as (? & _ & Hh & _). destruct Hcall as (Hi & _).
        apply IH. rewrite Hh. simpl in *. lia.
    + destruct Hcall as (Hi & Hl & ? & ?). simpl in Hi, Hl.
      rewrite length_app in Hl. simpl in Hl.
      unfold after. simpl. repeat split; try done; lia.
Qed.

(** ** A proof rule for the loop *)

(** [P] holds at the loop head, [B ops] inside a body with [ops] left to
    do, [Q] where the loop returns and [F] where it panics.  The rule
    follows the control flow of [run], [Invoke], [call] and [Next]. *)
Section rule.

Variable P : context → Prop.
Variable B : list Op → context → Prop.
Variable Q : context → Prop.
Variable F : Fault → context → Prop.

Hypothesis past_end : ∀ c, P c → len (handlers c) < index c → Q c.
Hypothesis no_handler : ∀ c e,
  P c → index c ≤ len (handlers c) → handler c = inl e → F e c.
Hypothesis unresolved : ∀ c h ty,
  P c → handler c = inr h →
  inject.resolve (Injector c) (params h) = inl ty →
  F (UnresolvedDependency ty) c.
Hypothesis enter : ∀ c h vs,
  P c → handler c = inr h →
  inject.resolve (Injector c) (params h) = inr vs →
  B (body h) (log (EInvoke (index c) h) c).
Hypothesis do_work : ∀ x rest c,
  B (Work x :: rest) c → B rest (log (EWork x) c).
Hypothesis do_write : ∀ b rest c,
  B (Write b :: rest) c → B rest (sink (CallWrite b) c).
Hypothesis do_write_header : ∀ code rest c,
  B (WriteHeader code :: rest) c → B rest (sink (CallWriteHeader code) c).
Hypothesis do_map : ∀ v key rest c,
  B (MapTo v key :: rest) c →
  B rest (set_Injector (inject.MapTo v key (Injector c)) c).
Hypothesis do_panic : ∀ msg rest c,
  B (Panic msg :: rest) c → F (HandlerPanic msg) c.
Hypothesis next_in : ∀ rest c,
  B (CallNext :: rest) c → P (set_index (index c + 1) (log ENext c)).
Hypothesis next_out : ∀ rest c c',
  B (CallNext :: rest) c → Q c' → B rest c'.
Hypothesis leave_stop : ∀ c,
  B [] c → Written c = true → Q (set_index (index c + 1) c).
Hypothesis leave_go : ∀ c,
  B [] c → Written c = false → P (set_index (index c + 1) c).

Lemma call_rule (r : context → Outcome) :
  (∀ c, P c → sat Q F (r c)) →
  ∀ ops c, B ops c → sat (B []) F (call (Next_over r) ops c).
Proof.
  intros Hr. induction ops as [|op rest IH]; intros c HB; [done|].
  destruct op; simpl; eauto.
  unfold Next_over at 1.
  pose proof (Hr _ (next_in _ _ HB)) as Hn.
  destruct (r _) as [c'|e c'|]; simpl in *; eauto.
Qed.

Lemma run_rule fuel : ∀ c, P c → sat Q F (run fuel c).
Proof.
  induction fuel as [|fuel IH]; intros c HP; simpl.
  - destruct (index c <=? len (handlers c)) eqn:E; [done|].
    apply Z.leb_gt in E. simpl. eauto.
  - destruct (index c <=? len (handlers c)) eqn:E;
      [apply Z.leb_le in E|apply Z.leb_gt in E; simpl; eauto].
    destruct (handler c) as [e|h] eqn:Eh; [simpl; eauto|].
    unfold Invoke.
    destruct (inject.resolve _ _) as [ty|vs] eqn:Er; [simpl; eauto|].
    pose proof (call_rule (run fuel) IH _ _ (enter _ _ _ HP Eh Er)) as Hc.
    destruct (call _ _ _) as [c1|e c1|]; simpl in *; [|done|done].
    change (Written (set_index (index c1 + 1) c1)) with (Written c1).
    destruct (Written c1) eqn:Ew; simpl; eauto.
Qed.

Lemma Next_rule fuel rest c :
  B (CallNext :: rest) c → sat Q F (Next fuel c).
Proof. intros HB. apply run_rule. eauto. Qed.

End rule.

(** ** The default return handler *)

Lemma has_sink_createContext m res req : has_sink (createContext m res req).
Proof. unfold has_sink, createContext. simpl. by simplify_map_eq. Qed.




(** C7: under the default return handler a lone byte slice is written
    verbatim with no status call, and [(404, "not found")] has
    [WriteHeader(404)] called and then the body [not found] written. *)
Theorem defaultReturnHandler_bytes_and_status (ctx : context) (b : list byte) :
  has_sink ctx →
  (∃ c', defaultReturnHandler ctx [reflect.OfBytes b] = Returned c'
         ∧ calls (rw c') = calls (rw ctx) ++ [CallWrite b])
  ∧ (∃ c', defaultReturnHandler ctx
             [reflect.OfInt 404; reflect.OfString "not found"] = Returned c'
           ∧ calls (rw c') =
               calls (rw ctx) ++ [CallWriteHeader 404;
                                  CallWrite (bytes_of_string "not found")]).
Proof.
  unfold has_sink, defaultReturnHandler. intros ->. split.
  - eexists. split; [reflexivity|]. reflexivity.
  - eexists. split; [reflexivity|]. simpl. by rewrite <- app_assoc.
Qed.

Lemma defaultReturnHandler_bytes_and_status_witness :
  has_sink (fresh [] (plain [])) ∧
  (∃ c', defaultReturnHandler (fresh [] (plain []))
           [reflect.OfBytes [x68; x69]] = Returned c'
         ∧ calls (rw c') = calls (rw (fresh [] (plain [])))
                             ++ [CallWrite [x68; x69]]).
Proof.
  split; [apply has_sink_createContext|].
  apply (defaultReturnHandler_bytes_and_status (fresh [] (plain []))
           [x68; x69] (has_sink_createContext _ _ _)).
Defined.

(** A first value that is not of kind [Int] is the response value,
    however many values follow. *)
Lemma defaultReturnHandler_head ctx v rest :
  has_sink ctx →
  reflect.kind v ≠ reflect.Int →
  defaultReturnHandler ctx (v :: rest) =
    Returned (sink (CallWrite (rendered v)) ctx).
Proof.
  unfold has_sink, defaultReturnHandler, rendered. intros -> Hk.
  assert (reflect.Kind_eqb (reflect.kind v) reflect.Int = false) as Hk'.
  { destruct (reflect.kind v); try reflexivity. done. }
  cbn [nth length]. rewrite Hk', andb_false_r.
  assert ((0 <? Z.of_nat (S (length rest))) = true) as ->
    by (apply Z.ltb_lt; lia).
  cbn beta iota. destruct (canDeref v), (isByteSlice _); reflexivity.
Qed.

(** C10: given two or more values of which the first is not of kind
    [Int], the default return handler writes the body of the first one,
    makes no status call, and does with the values what it does with the
    first one alone. *)
Theorem defaultReturnHandler_first_not_int
  (ctx : context) (v : reflect.Value) (rest : list reflect.Value) :
  has_sink ctx →
  rest ≠ [] →
  reflect.kind v ≠ reflect.Int →
  defaultReturnHandler ctx (v :: rest) =
    Returned (sink (CallWrite (rendered v)) ctx)
  ∧ defaultReturnHandler ctx (v :: rest) = defaultReturnHandler ctx [v].
Proof.
  intros Hs _ Hk. split.
  - by apply defaultReturnHandler_head.
  - by rewrite !defaultReturnHandler_head.
Qed.

Lemma defaultReturnHandler_first_not_int_witness :
  defaultReturnHandler (fresh [] (plain []))
    [reflect.OfString "a"; reflect.OfInt 500] =
    Returned (sink (CallWrite (rendered (reflect.OfString "a")))
                   (fresh [] (plain [])))
  ∧ defaultReturnHandler (fresh [] (plain []))
      [reflect.OfString "a"; reflect.OfInt 500] =
    defaultReturnHandler (fresh [] (plain [])) [reflect.OfString "a"].
Proof.
  apply (defaultReturnHandler_first_not_int (fresh [] (plain []))
           (reflect.OfString "a") [reflect.OfInt 500]).
  - apply has_sink_createContext.
  - discriminate.
  - simpl. discriminate.
Defined.

(** ** The context of a request *)

(** C8, as the code has it: the context of a request starts at cursor 0
    over the application's middleware and action, with a decorated, still
    unwritten response writer and a container whose parent is the
    application's.  That container maps exactly three things: the context
    itself under the [Context] interface, the decorated writer under
    [http.ResponseWriter], and the request under its concrete type.  The
    context is not mapped under its own concrete type: that key, like any
    other, is read through to the application's container. *)
Theorem createContext_seeds (m : Martini) (res : string) (req : Request) :
  let c := createContext m res req in
  index c = 0
  ∧ handlers c = m_handlers m ∧ action c = m_action m
  ∧ rw c = NewResponseWriter res ∧ Written c = false
  ∧ inject.parent (Injector c) = Some (m_Injector m)
  ∧ inject.Get (Injector c) ty_Context = Some SvcContext
  ∧ inject.Get (Injector c) ty_ResponseWriter = Some SvcResponseWriter
  ∧ inject.Get (Injector c) (concrete_type (SvcRequest req))
    = Some (SvcRequest req)
  ∧ inject.values (Injector c) !! concrete_type SvcContext = None
  ∧ ∀ key, key ≠ ty_Context → key ≠ ty_ResponseWriter →
           key ≠ concrete_type (SvcRequest req) →
           inject.Get (Injector c) key = inject.Get (m_Injector m) key.
Proof.
  cbv zeta. unfold createContext, ty_Context, ty_ResponseWriter. simpl.
  repeat split; try by simplify_map_eq.
  intros key H1 H2 H3. by simplify_map_eq.
Qed.

(** C8 as stated fails: in the context of a request to a bare
    application, asking for the context by its concrete type finds
    nothing, in the request container or through its parent. *)
Lemma createContext_self_not_concrete :
  inject.Get (Injector (createContext New "w" GET_root))
             (concrete_type SvcContext) = None
  ∧ inject.Get (Injector (createContext New "w" GET_root)) ty_Context
    = Some SvcContext.
Proof. split; by vm_compute. Qed.

(** ** Failures *)


Lemma resolve_inr i ps :
  (∀ p, p ∈ ps → is_Some (inject.Get i p)) → ∃ vs, inject.resolve i ps = inr vs.
Proof.
  induction ps as [|p ps IH]; intros H; simpl; [eauto|].
  destruct (H p) as [v ->]; [by left|].
  destruct IH as [vs ->]; [intros; apply H; by right|]. eauto.
Qed.


(** ** The cursor *)

Lemma cursors_app t1 t2 : cursors (t1 ++ t2) = cursors t1 ++ cursors t2.
Proof. unfold cursors. by rewrite invokes_app, fmap_app. Qed.

Lemma StronglySorted_snoc (l : list Z) x :
  StronglySorted Z.lt l → Forall (λ y, y < x) l →
  StronglySorted Z.lt (l ++ [x]).
Proof.
  induction 1 as [|y l Hl IH Hy]; intros Hx; simpl.
  - repeat constructor.
  - inversion Hx; subst. constructor; [by apply IH|].
    apply Forall_app. split; [done|]. by constructor.
Qed.

Lemma cursor_inv_weaken c0 c : cursor_inv true c0 c → cursor_inv false c0 c.
Proof.
  intros (? & ? & ? & Hall). repeat split; try done.
  eapply Forall_impl; [exact Hall|]. simpl. intros j [? ?]. split; [done|lia].
Qed.

(** Steps that leave cursor and invocations alone keep the invariant. *)
Lemma cursor_inv_same b c0 c c' :
  index c' = index c → handlers c' = handlers c →
  cursors (trace c') = cursors (trace c) →
  cursor_inv b c0 c → cursor_inv b c0 c'.
Proof.
  unfold cursor_inv. intros -> -> ->. done.
Qed.

(** Advancing the cursor makes the bound strict. *)
Lemma cursor_inv_advance c0 c c' :
  index c' = index c + 1 → handlers c' = handlers c →
  cursors (trace c') = cursors (trace c) →
  cursor_inv false c0 c → cursor_inv true c0 c'.
Proof.
  unfold cursor_inv. intros -> -> -> (? & ? & ? & Hall).
  repeat split; try done; [lia|].
  eapply Forall_impl; [exact Hall|]. simpl. intros j [? ?]. split; [done|lia].
Qed.

Lemma cursor_inv_enter c0 c h :
  0 ≤ index c0 → index c ≤ len (handlers c) →
  cursor_inv true c0 c →
  cursor_inv false c0 (log (EInvoke (index c) h) c).
Proof.
  unfold cursor_inv. intros H0 HN (Hi & Hh & Hs & Hall). simpl.
  rewrite cursors_app. change (cursors [EInvoke (index c) h]) with [index c].
  repeat split; try done.
  - apply StronglySorted_snoc; [done|].
    eapply Forall_impl; [exact Hall|]. simpl. by intros j [_ ?].
  - apply Forall_app. split.
    + eapply Forall_impl; [exact Hall|]. simpl. intros j [? ?].
      split; [done|lia].
    + constructor; [|done]. rewrite <- Hh. lia.
Qed.

Lemma cursors_snoc_quiet t e :
  (∀ i h, e ≠ EInvoke i h) → cursors (t ++ [e]) = cursors t.
Proof.
  intros He. rewrite cursors_app.
  destruct e; try by rewrite app_nil_r. by destruct (He i h).
Qed.

(** From a cursor that is not negative, the loop keeps the cursor
    invariant; [handler()] never fails in it; and when it returns without
    a response written the cursor is past the end of the chain. *)
Lemma run_cursor_inv fuel c0 c :
  0 ≤ index c0 →
  cursor_inv true c0 c →
  sat (λ c', cursor_inv true c0 c'
             ∧ (Written c' = false → len (handlers c0) < index c'))
      (λ e c', cursor_inv false c0 c' ∧ ¬ index_fault e)
      (run fuel c).
Proof.
  intros H0. revert c.
  apply run_rule with (B := λ _, cursor_inv false c0).
  - intros c HP Hlt. split; [done|]. destruct HP as (_ & <- & _). done.
  - intros c e HP HN He. exfalso.
    apply handler_inl in He; [lia|]. destruct HP as (? & _). lia.
  - intros c h ty HP _ _. split; [by apply cursor_inv_weaken|].
    intros [?|?]; discriminate.
  - intros c h vs HP Hh _. apply cursor_inv_enter; [done| |done].
    by apply handler_inr in Hh as [[_ ?] _].
  - intros x rest c. apply cursor_inv_same; try done.
    simpl. by apply cursors_snoc_quiet.
  - intros b rest c. apply cursor_inv_same; try done.
    simpl. by apply cursors_snoc_quiet.
  - intros code rest c. apply cursor_inv_same; try done.
    simpl. by apply cursors_snoc_quiet.
  - intros v key rest c. by apply cursor_inv_same.
  - intros msg rest c HB. split; [done|]. intros [?|?]; discriminate.
  - intros rest c. apply cursor_inv_advance; try done.
    simpl. by apply cursors_snoc_quiet.
  - intros rest c c' _ [HQ _]. by apply cursor_inv_weaken.
  - intros c HB Hw. split; [by eapply cursor_inv_advance|].
    change (Written (set_index (index c + 1) c)) with (Written c). congruence.
  - intros c HB _. by eapply cursor_inv_advance.
Qed.

(** C5, as the code has it: from the start of a request the cursor never
    decreases, and it advances at most once per recorded event; handlers
    are called at strictly increasing cursor values, each within
    [0, len(handlers)], so [handler()] never raises its invalid-index
    fault.  The cursor itself does pass len(handlers): when the loop
    returns with no response written it is greater. *)
Theorem cursor_invariant (fuel : nat) (c : context) :
  0 ≤ index c → trace c = [] → enough fuel c →
  match run fuel c with
  | Returned c' =>
      cursor_ok c c' ∧ after c c'
      ∧ (Written c' = false → len (handlers c) < index c')
  | Panicked e c' => cursor_ok c c' ∧ after c c' ∧ ¬ index_fault e
  | OutOfFuel => False
  end.
Proof.
  intros H0 Ht Hf.
  pose proof (run_settled fuel c Hf) as Hs.
  assert (cursor_inv true c c) as HP.
  { unfold cursor_inv. rewrite Ht. repeat split; try done; constructor. }
  pose proof (run_cursor_inv fuel c c H0 HP) as Hr.
  assert (∀ b c', cursor_inv b c c' → cursor_ok c c') as Hok.
  { intros b c' (? & ? & ? & Hall). repeat split; try done.
    eapply Forall_impl; [exact Hall|]. simpl. by intros j [? _]. }
  destruct (run fuel c) as [c'|e c'|]; simpl in *; [| |done].
  - destruct Hr as [Hr ?]. split; [by eapply Hok|by split].
  - destruct Hr as [Hr ?]. split; [by eapply Hok|by split].
Qed.

Lemma cursor_invariant_witness :
  match run 2 (fresh [plain [CallNext]] (plain [])) with
  | Returned c' =>
      cursor_ok (fresh [plain [CallNext]] (plain [])) c'
      ∧ after (fresh [plain [CallNext]] (plain [])) c'
      ∧ (Written c' = false
         → len (handlers (fresh [plain [CallNext]] (plain []))) < index c')
  | Panicked e c' =>
      cursor_ok (fresh [plain [CallNext]] (plain [])) c'
      ∧ after (fresh [plain [CallNext]] (plain [])) c' ∧ ¬ index_fault e
  | OutOfFuel => False
  end.
Proof.
  apply (cursor_invariant 2 (fresh [plain [CallNext]] (plain []))).
  - by vm_compute.
  - reflexivity.
  - by vm_compute.
Defined.

(** C5 as stated fails: a cursor greater than len(handlers) is reached by
    every request that runs to the end.  With no middleware the cursor is
    1 after the action; with one middleware that calls [Next()] it is 3,
    over a chain of length 1. *)
Lemma cursor_exceeds_len :
  (∃ c', run 1 (fresh [] (plain [])) = Returned c'
         ∧ index c' = 1 ∧ len (handlers c') = 0)
  ∧ (∃ c', run 2 (fresh [plain [CallNext]] (plain [])) = Returned c'
           ∧ index c' = 3 ∧ len (handlers c') = 1).
Proof. split; eexists; (split; [vm_compute; reflexivity|]); by vm_compute. Qed.

(** ** The written flag *)

Lemma wrote_snoc t e :
  wrote (t ++ [e]) → wrote t ∨ ∃ call, e = ESink call.
Proof.
  intros [call Hin]. apply elem_of_app in Hin as [Hin|Hin].
  - left. by exists call.
  - right. apply list_elem_of_singleton in Hin. eauto.
Qed.

Lemma only_Next_snoc t e :
  only_Next_after_write t →
  (∀ i h, e = EInvoke i h → wrote t → ∃ t0, t = t0 ++ [ENext]) →
  only_Next_after_write (t ++ [e]).
Proof.
  intros Ht He t1 i h t2 Heq Hw.
  destruct t2 as [|x t2 _] using rev_ind.
  - apply app_inj_tail in Heq as [-> ->]. eauto.
  - rewrite app_comm_cons, app_assoc in Heq.
    apply app_inj_tail in Heq as [-> ->]. eauto.
Qed.

Lemma Written_sink call c : Written (sink call c) = true.
Proof.
  unfold Written, rw_Written, sink. destruct call; simpl;
    by destruct (calls (rw c)).
Qed.

Lemma write_inv_quiet c c' e :
  trace c' = trace c ++ [e] → rw c' = rw c →
  (∀ call, e ≠ ESink call) → (∀ i h, e ≠ EInvoke i h) →
  write_inv false c → write_inv false c'.
Proof.
  unfold write_inv, Written. intros -> -> Hs Hi (Hw & Hn & _).
  repeat split; try done.
  - intros [?|[call ->]]%wrote_snoc; [eauto|by destruct (Hs call)].
  - apply only_Next_snoc; [done|]. intros i h ->. by destruct (Hi i h).
Qed.

Lemma write_inv_sink call c :
  write_inv false c → write_inv false (sink call c).
Proof.
  intros (Hw & Hn & _). repeat split; try done.
  - intros _. apply Written_sink.
  - apply only_Next_snoc; [done|]. by intros i h.
Qed.

(** The loop keeps the written-flag invariant, whatever the handlers do. *)
Lemma run_write_inv fuel c :
  write_inv true c →
  sat (write_inv false) (λ _, write_inv false) (run fuel c).
Proof.
  revert c. apply run_rule with (B := λ _, write_inv false).
  - intros c (? & ? & ?) _. by repeat split.
  - intros c e (? & ? & ?) _ _. by repeat split.
  - intros c h ty (? & ? & ?) _ _. by repeat split.
  - intros c h vs (Hw & Hn & Hhead) _ _. repeat split; try done.
    + simpl. intros [?|[call ?]]%wrote_snoc; [eauto|done].
    + simpl. apply only_Next_snoc; [done|]. intros; eauto.
  - intros x rest c. by apply (write_inv_quiet c _ (EWork x)).
  - intros b rest c. apply write_inv_sink.
  - intros code rest c. apply write_inv_sink.
  - intros v key rest c (? & ? & ?). by repeat split.
  - by intros msg rest c.
  - intros rest c (Hw & Hn & _). repeat split.
    + simpl. intros [?|[call ?]]%wrote_snoc; [eauto|done].
    + simpl. apply only_Next_snoc; [done|]. by intros i h.
    + simpl. eauto.
  - by intros rest c c' _.
  - by intros c (? & ? & ?) Hw.
  - intros c (Hw & Hn & _) Hf. repeat split; try done.
    simpl. intros Ht. apply Hw in Ht. congruence.
Qed.

(** Over a chain without [Next()] calls no [Next()] is ever recorded. *)
Lemma run_nextless fuel c0 c :
  nextless c0 = true →
  nextless_inv c0 [] c →
  sat (nextless_inv c0 []) (λ _, nextless_inv c0 []) (run fuel c).
Proof.
  intros Hnl. revert c.
  assert (∀ op rest c c',
             handlers c' = handlers c → action c' = action c →
             (∀ e, e ∈ trace c' → e ∈ trace c ∨ e ≠ ENext) →
             nextless_inv c0 (op :: rest) c → nextless_inv c0 rest c') as Hstep.
  { unfold nextless_inv. intros op rest c c' Hh Ha He (? & ? & Hn & Hs).
    simpl in Hs. apply andb_prop in Hs as [_ Hs].
    repeat split; try congruence.
    intros Hin. by destruct (He _ Hin). }
  assert (∀ (t : list Event) e e', e' ≠ ENext → e ∈ t ++ [e'] →
                                   e ∈ t ∨ e ≠ ENext) as Hsnoc.
  { intros t e e' Hne [?|Hin]%elem_of_app; [by left|].
    apply list_elem_of_singleton in Hin. subst. by right. }
  apply run_rule with (B := nextless_inv c0).
  - by intros c (? & ? & ? & _) _.
  - by intros c e (? & ? & ? & _) _ _.
  - by intros c h ty (? & ? & ? & _) _ _.
  - intros c h vs (Hh & Ha & Hn & _) Hc _.
    apply handler_inr in Hc as [_ Hc].
    unfold chain in Hc. rewrite Hh, Ha in Hc.
    unfold nextless in Hnl. rewrite forallb_forall in Hnl.
    repeat split; try done.
    + simpl. intros [?|Hin]%elem_of_app; [done|].
      by apply list_elem_of_singleton in Hin.
    + apply Hnl, list_elem_of_In. by eapply list_elem_of_lookup_2.
  - intros x rest c. apply Hstep; try done. intros e. by apply Hsnoc.
  - intros b rest c. apply Hstep; try done. intros e. by apply Hsnoc.
  - intros code rest c. apply Hstep; try done. intros e. by apply Hsnoc.
  - intros v key rest c. apply Hstep; try done. intros e. by left.
  - intros msg rest c (? & ? & ? & Hs). by repeat split.
  - by intros rest c (_ & _ & _ & Hs).
  - by intros rest c c' (_ & _ & _ & Hs).
  - by intros c (? & ? & ? & _) _.
  - by intros c (? & ? & ? & _) _.
Qed.

(** C2, as the code has it.  The loop tests the written flag after each
    invocation it makes, and when the flag is up it returns at once: it
    increments the cursor and calls nothing more.  So over a whole
    request, a handler that is called after the sink has received a call
    is never called by the loop advancing: it is called by a [Next()] that
    a handler body made just before, which re-enters the loop without a
    test of the flag.  When no handler of the chain calls [Next()], no
    handler at all is called after the sink has received a call. *)
Theorem written_stops_loop (fuel : nat) (c : context) :
  (∀ h vals c1,
      handler c = inr h →
      Invoke (Next_over (run fuel)) h c = InvokeOk vals c1 →
      Written c1 = true →
      run (S fuel) c = Returned (set_index (index c1 + 1) c1))
  ∧ (trace c = [] → enough fuel c →
     match run fuel c with
     | Returned c' | Panicked _ c' =>
         only_Next_after_write (trace c')
         ∧ (nextless c = true → no_invoke_after_write (trace c'))
     | OutOfFuel => False
     end).
Proof.
  split.
  - intros h vals c1 Hh Hi Hw.
    pose proof (handler_inr _ _ Hh) as [[_ HN] _]. apply Z.leb_le in HN.
    simpl. rewrite HN, Hh, Hi.
    change (Written (set_index (index c1 + 1) c1)) with (Written c1).
    by rewrite Hw.
  - intros Ht Hf.
    pose proof (run_settled fuel c Hf) as Hs.
    assert (write_inv true c) as HP.
    { unfold write_inv, wrote, only_Next_after_write. rewrite Ht.
      repeat split.
      - intros [call Hin]. by apply elem_of_nil in Hin.
      - intros t1 i h t2 Heq. by destruct t1.
      - intros [call Hin]. by apply elem_of_nil in Hin. }
    pose proof (run_write_inv fuel c HP) as Hr.
    assert (nextless c = true → nextless_inv c [] c) as HP'.
    { intros _. repeat split; try done. rewrite Ht. apply not_elem_of_nil. }
    pose proof (run_nextless fuel c c) as Hn.
    assert (∀ c', write_inv false c' →
                  (nextless c = true → nextless_inv c [] c') →
                  only_Next_after_write (trace c')
                  ∧ (nextless c = true → no_invoke_after_write (trace c')))
      as Hfin.
    { intros c' (_ & Ho & _) Hnl. split; [done|].
      intros Hc t1 i h t2 Heq Hw.
      destruct (Hnl Hc) as (_ & _ & Hnn & _).
      destruct (Ho _ _ _ _ Heq Hw) as [t0 ->].
      apply Hnn. rewrite Heq. set_solver. }
    destruct (run fuel c) as [c'|e c'|]; simpl in *; [| |done];
      apply Hfin; auto.
Qed.

Lemma written_stops_loop_witness :
  match run 3 (fresh [plain [Write [x68]]; plain [Work "skipped"]]
                     (plain [Work "act"])) with
  | Returned c' | Panicked _ c' =>
      only_Next_after_write (trace c')
      ∧ (nextless (fresh [plain [Write [x68]]; plain [Work "skipped"]]
                         (plain [Work "act"])) = true
         → no_invoke_after_write (trace c'))
  | OutOfFuel => False
  end.
Proof.
  apply (written_stops_loop 3
           (fresh [plain [Write [x68]]; plain [Work "skipped"]]
                  (plain [Work "act"]))).
  - reflexivity.
  - by vm_compute.
Defined.

(** C2 as stated fails: a middleware that writes and then calls [Next()]
    has the next handler, here the action at cursor 1, called although
    the written flag went up during the invocation at cursor 0. *)
Lemma invoked_after_write :
  ∃ c', run 2 (fresh [plain [Write [x68]; CallNext]] (plain [Work "act"]))
        = Returned c'
        ∧ trace c' = [EInvoke 0 (plain [Write [x68]; CallNext]);
                      ESink (CallWrite [x68]);
                      ENext;
                      EInvoke 1 (plain [Work "act"]);
                      EWork "act"]
        ∧ ¬ no_invoke_after_write (trace c').
Proof.
  eexists. split; [vm_compute; reflexivity|]. split; [reflexivity|].
  intros H.
  apply (H [EInvoke 0 (plain [Write [x68]; CallNext]);
            ESink (CallWrite [x68]); ENext]
           1 (plain [Work "act"]) [EWork "act"] eq_refl).
  exists (CallWrite [x68]). set_solver.
Qed.

(** ** Orderly runs *)

Lemma indexed_lookup k l n :
  indexed k l !! n = (λ h, (k + Z.of_nat n, h)) <$> l !! n.
Proof.
  revert k n. induction l as [|h l IH]; intros k [|n]; simpl; try done.
  - by rewrite Z.add_0_r.
  - rewrite IH. destruct (l !! n); simpl; [|done]. do 2 f_equal. lia.
Qed.

Lemma span_nil ch lo : span ch lo lo = [].
Proof. unfold span. by rewrite Z.sub_diag. Qed.

Lemma span_snoc ch lo i h :
  0 ≤ lo ≤ i → ch !! Z.to_nat i = Some h →
  span ch lo (i + 1) = span ch lo i ++ [(i, h)].
Proof.
  intros Hlo Hh. unfold span.
  replace (Z.to_nat (i + 1 - lo)) with (S (Z.to_nat (i - lo))) by lia.
  apply take_S_r. rewrite lookup_drop, indexed_lookup.
  replace (Z.to_nat lo + Z.to_nat (i - lo))%nat with (Z.to_nat i) by lia.
  rewrite Hh. simpl. do 2 f_equal. lia.
Qed.

Lemma span_full ch lo hi :
  0 ≤ lo → len ch ≤ hi →
  span ch lo hi = drop (Z.to_nat lo) (indexed 0 ch).
Proof.
  intros Hlo Hhi. unfold span. apply take_ge.
  rewrite length_drop, indexed_length. unfold len in Hhi. lia.
Qed.

Lemma Get_MapTo_is_Some v key i p :
  is_Some (inject.Get i p) → is_Some (inject.Get (inject.MapTo v key i) p).
Proof.
  destruct i as [vals|vals par]; simpl.
  - destruct (decide (key = p)) as [->|Hne].
    + rewrite lookup_insert_eq. eauto.
    + by rewrite lookup_insert_ne.
  - destruct (decide (key = p)) as [->|Hne].
    + rewrite lookup_insert_eq. eauto.
    + by rewrite lookup_insert_ne.
Qed.

Lemma chain_length c : len (chain c) = len (handlers c) + 1.
Proof. apply len_app_one. Qed.

Lemma invokes_snoc_quiet t e :
  (∀ i h, e ≠ EInvoke i h) → invokes (t ++ [e]) = invokes t.
Proof.
  intros He. rewrite invokes_app.
  destruct e; try by rewrite app_nil_r. by destruct (He i h).
Qed.

(** A step of a body that calls nothing and leaves cursor, chain and
    writer alone. *)
Lemma quiet_inv_step c0 op rest c c' :
  handlers c' = handlers c → action c' = action c →
  index c' = index c → rw c' = rw c →
  invokes (trace c') = invokes (trace c) →
  (∀ h, resolvable (Injector c) h → resolvable (Injector c') h) →
  quiet_inv false c0 (op :: rest) c → quiet_inv false c0 rest c'.
Proof.
  unfold quiet_inv, Written.
  intros -> -> -> -> -> Hres (? & ? & Hr & ? & ? & ? & Hc & Hs).
  simpl in Hc. apply andb_prop in Hc as [_ Hc].
  repeat split; try done; [by eauto|].
  destruct Hs as [Hs|?]; [|by right].
  simpl in Hs. apply andb_prop in Hs as [_ Hs]. by left.
Qed.

Lemma quiet_inv_sink c0 call op rest c :
  silent op = false →
  quiet_inv false c0 (op :: rest) c → quiet_inv false c0 rest (sink call c).
Proof.
  unfold quiet_inv. intros Hop (? & ? & Hr & ? & ? & Ht & Hc & Hs).
  simpl in Hc. apply andb_prop in Hc as [_ Hc].
  destruct Hs as [Hs|HN].
  { simpl in Hs. rewrite Hop in Hs. done. }
  repeat split; try done; [|by right].
  simpl. by rewrite invokes_snoc_quiet.
Qed.

(** An orderly run returns with the cursor past the chain, having called
    in order the handlers from the cursor it was entered at. *)
Lemma run_quiet fuel c0 c :
  0 ≤ index c0 → orderly_from c0 (index c0) →
  quiet_inv true c0 [] c →
  sat (λ c', quiet_inv true c0 [] c' ∧ len (handlers c0) < index c')
      (λ _ _, False) (run fuel c).
Proof.
  intros H0 Hord. revert c.
  apply run_rule with (B := quiet_inv false c0).
  - intros c HP Hlt. split; [done|]. by destruct HP as (<- & _).
  - intros c e (? & ? & ? & ? & _) HN He.
    apply handler_inl in He; lia.
  - intros c h ty (Hh & Ha & Hr & Hi & _) Hc Hty.
    apply handler_inr in Hc as [_ Hc].
    unfold chain in Hc, Hr. rewrite Hh, Ha in Hc.
    destruct (resolve_inr (Injector c) (params h)) as [vs Hvs];
      [by eapply Hr|congruence].
  - intros c h vs (Hh & Ha & Hr & Hi & Hw & Ht & _) Hc _.
    apply handler_inr in Hc as [[_ HN] Hc].
    unfold chain in Hc. rewrite Hh, Ha in Hc. rewrite Hh in HN.
    destruct (Hord _ _ Hi Hc) as (Hs & Hcalm & _).
    repeat split; try done.
    + simpl. intros Hw'. apply Hw in Hw'. lia.
    + simpl. rewrite invokes_app, Ht, <- app_assoc. f_equal.
      symmetry. apply span_snoc; [lia|done].
    + destruct (Z_lt_le_dec (index c) (len (handlers c0))); [left|right]; auto.
  - intros x rest c. apply quiet_inv_step; try done.
    simpl. by apply invokes_snoc_quiet.
  - intros b rest c. by apply quiet_inv_sink.
  - intros code rest c. by apply quiet_inv_sink.
  - intros v key rest c. apply quiet_inv_step; try done.
    intros h Hr p Hp. apply Get_MapTo_is_Some. by apply Hr.
  - intros msg rest c (_ & _ & _ & _ & _ & _ & Hc & _). done.
  - intros rest c (? & ? & ? & ? & Hw & Ht & _). repeat split; try done.
    + simpl. lia.
    + simpl. intros Hw'. apply Hw in Hw'. lia.
    + simpl. by rewrite invokes_snoc_quiet.
  - intros rest c c' (_ & _ & _ & _ & _ & _ & Hc & _)
           [(? & ? & ? & ? & Hw & Ht & _) Hlt].
    simpl in Hc. repeat split; try done.
    + intros _. lia.
    + rewrite Ht. f_equal.
      rewrite !span_full; try done; rewrite chain_length; lia.
    + right. lia.
  - intros c (? & ? & ? & ? & Hw & Ht & _) Hw'. apply Hw in Hw' as HN.
    split; [|simpl; lia]. repeat split; try done; simpl; lia.
  - intros c (? & ? & ? & ? & Hw & Ht & _) Hw'.
    repeat split; try done; simpl; [lia|].
    change (Written (set_index (index c + 1) c)) with (Written c).
    congruence.
Qed.

Lemma orderly_sound c k : 0 ≤ k → orderly c k = true → orderly_from c k.
Proof.
  unfold orderly. intros Hk Hall j h Hj Hl.
  rewrite forallb_forall in Hall.
  assert (orderly_at c (j, h) = true) as Hat.
  { apply Hall, list_elem_of_In.
    apply (list_elem_of_lookup_2 _ (Z.to_nat j - Z.to_nat k)%nat).
    rewrite lookup_drop, indexed_lookup.
    replace (Z.to_nat k + (Z.to_nat j - Z.to_nat k))%nat with (Z.to_nat j)
      by lia.
    rewrite Hl. simpl. do 2 f_equal. lia. }
  unfold orderly_at in Hat. simpl in Hat.
  apply andb_prop in Hat as [Hat Hres]. apply andb_prop in Hat as [Hs Hc].
  repeat split; try done.
  - intros Hlt. apply Z.ltb_lt in Hlt. by rewrite Hlt in Hs.
  - intros p Hp. rewrite forallb_forall in Hres.
    apply list_elem_of_In, Hres in Hp. unfold resolves in Hp.
    by destruct (inject.Get (Injector c) p).
Qed.

Lemma quiet_inv_start c : (Written c = true → len (handlers c) < index c) →
  orderly_from c (index c) → quiet_inv true c [] c.
Proof.
  intros Hw Hord. repeat split; try done; try lia.
  - intros j h Hj Hl. by apply (Hord j h).
  - by rewrite span_nil, app_nil_r.
Qed.

(** C1, as the code has it: when no middleware writes to the response
    writer, no handler panics and every handler parameter resolves,
    serving a request calls the N middleware in registration order at
    cursors 0 to N-1 and then the action, once, at cursor N, and
    returns. *)
Theorem action_once_after_middleware
  (fuel : nat) (m : Martini) (res : string) (req : Request) :
  orderly (createContext m res req) 0 = true →
  enough fuel (createContext m res req) →
  ∃ c', ServeHTTP fuel m res req = Returned c'
        ∧ invokes (trace c')
          = indexed 0 (m_handlers m) ++ [(len (m_handlers m), m_action m)].
Proof.
  intros Hord Hf. unfold ServeHTTP.
  set (c0 := createContext m res req) in *.
  apply orderly_sound in Hord; [|done].
  pose proof (run_settled fuel c0 Hf) as Hs.
  pose proof (run_quiet fuel c0 c0 ltac:(done) Hord) as Hq.
  specialize (Hq (quiet_inv_start c0 ltac:(done) Hord)).
  destruct (run fuel c0) as [c'|e c'|]; simpl in *; [|done|done].
  exists c'. split; [done|].
  destruct Hq as [(_ & _ & _ & _ & _ & Ht & _) Hlt].
  rewrite Ht. change (invokes (trace c0)) with (@nil (Z * Handler)).
  change (index c0) with 0 in *. simpl.
  rewrite span_full; [|done|].
  2: { rewrite chain_length. change (handlers c0) with (m_handlers m). lia. }
  change (chain c0) with (m_handlers m ++ [m_action m]).
  simpl. by rewrite indexed_app.
Qed.

Lemma action_once_after_middleware_witness :
  ∃ c', ServeHTTP 3 (Action (plain [Work "act"])
                      (Handlers [Logger; plain [Work "mid"]] New))
                  "w" GET_root = Returned c'
        ∧ invokes (trace c')
          = indexed 0 [Logger; plain [Work "mid"]]
            ++ [(len [Logger; plain [Work "mid"]], plain [Work "act"])].
Proof.
  apply (action_once_after_middleware 3
           (Action (plain [Work "act"])
              (Handlers [Logger; plain [Work "mid"]] New)) "w" GET_root).
  - by vm_compute.
  - by vm_compute.
Defined.

(** C1 as stated fails: a chain in which no handler writes, but whose
    one middleware asks for a type that has no mapping.  Serving the
    request panics before anything is called: the action is not
    invoked. *)
Lemma action_not_invoked_when_unresolved :
  forallb silent (body (mkHandler ["Foo"] [] [])) = true
  ∧ forallb silent (body (plain [Work "act"])) = true
  ∧ ∃ c', ServeHTTP 2 (Action (plain [Work "act"])
                         (Handlers [mkHandler ["Foo"] [] []] New))
                    "w" GET_root
          = Panicked (UnresolvedDependency "Foo") c'
          ∧ invokes (trace c') = [].
Proof.
  split; [done|]. split; [done|].
  eexists. split; [vm_compute; reflexivity|]. reflexivity.
Qed.

(** ** [Next()] *)

(** C3, as the code has it: [Next()] increments the cursor and runs the
    loop again before it returns.  Called in the body of a middleware
    while no response is written, over later handlers of which no
    middleware writes, none panics and all parameters resolve, it returns
    when every later middleware and the action have been called, each
    once and in order, with the cursor past the chain; work that the body
    does next is done in that state. *)
Theorem work_after_Next
  (fuel : nat) (c : context) (x : string) (rest : list Op) :
  0 ≤ index c < len (handlers c) →
  Written c = false →
  orderly c (index c + 1) = true →
  enough fuel (set_index (index c + 1) c) →
  Next fuel c = run fuel (set_index (index c + 1) (log ENext c))
  ∧ ∃ c', Next fuel c = Returned c'
          ∧ invokes (trace c')
            = invokes (trace c)
              ++ drop (Z.to_nat (index c + 1)) (indexed 0 (chain c))
          ∧ len (handlers c) < index c'
          ∧ call (Next_over (run fuel)) (CallNext :: Work x :: rest) c
            = call (Next_over (run fuel)) rest (log (EWork x) c').
Proof.
  intros Hi Hw Hord Hf. split; [reflexivity|].
  apply orderly_sound in Hord; [|lia].
  unfold Next. simpl. unfold Next_over.
  set (c0 := set_index (index c + 1) (log ENext c)).
  assert (orderly_from c0 (index c0)) as Hord0 by exact Hord.
  pose proof (run_settled fuel c0 Hf) as Hs.
  pose proof (run_quiet fuel c0 c0 ltac:(simpl; lia) Hord0) as Hq.
  assert (Written c0 = true → len (handlers c0) < index c0) as Hw0.
  { change (Written c0) with (Written c). congruence. }
  specialize (Hq (quiet_inv_start c0 Hw0 Hord0)).
  destruct (run fuel c0) as [c'|e c'|]; simpl in Hs, Hq; [|done|done].
  exists c'. destruct Hq as [(_ & _ & _ & _ & _ & Ht & _) Hlt].
  repeat split; try done.
  rewrite Ht. simpl. rewrite invokes_snoc_quiet by done. f_equal.
  apply span_full; [lia|].
  change (chain c0) with (chain c). rewrite chain_length. lia.
Qed.

Lemma work_after_Next_witness :
  ∃ c', Next 2 (log (EWork "Started")
                   (log (EInvoke 0 Logger)
                        (fresh [Logger; plain [Work "mid"]]
                               (plain [Work "act"]))))
        = Returned c'
        ∧ invokes (trace c')
          = [(0, Logger)]
            ++ [(1, plain [Work "mid"]); (2, plain [Work "act"])].
Proof.
  destruct (work_after_Next 2
              (log (EWork "Started")
                   (log (EInvoke 0 Logger)
                        (fresh [Logger; plain [Work "mid"]]
                               (plain [Work "act"]))))
              "Completed" []) as (_ & c' & H1 & H2 & _).
  - by vm_compute.
  - reflexivity.
  - by vm_compute.
  - by vm_compute.
  - exists c'. split; [exact H1|exact H2].
Defined.

(** C3 as stated fails.  When a later middleware writes, [Next()]
    returns with the action never called, and the work after it is done
    all the same.  And when the body then calls [Next()] once more, the
    action runs after that work, while the middleware in between never
    runs. *)
Lemma work_after_Next_without_action :
  (∃ c', run 3 (fresh [plain [CallNext; Work "X"]; plain [Write [x68]]]
                      (plain [Work "act"])) = Returned c'
         ∧ trace c' = [EInvoke 0 (plain [CallNext; Work "X"]);
                       ENext;
                       EInvoke 1 (plain [Write [x68]]);
                       ESink (CallWrite [x68]);
                       EWork "X"])
  ∧ (∃ c', run 4 (fresh [plain [CallNext; Work "X"; CallNext];
                         plain [Write [x68]];
                         plain [Work "skipped"]]
                        (plain [Work "act"])) = Returned c'
           ∧ trace c' = [EInvoke 0 (plain [CallNext; Work "X"; CallNext]);
                         ENext;
                         EInvoke 1 (plain [Write [x68]]);
                         ESink (CallWrite [x68]);
                         EWork "X";
                         ENext;
                         EInvoke 3 (plain [Work "act"]);
                         EWork "act"]).
Proof.
  split; eexists; (split; [vm_compute; reflexivity|reflexivity]).
Qed.

(** ** Return values and the loop *)

Lemma len_returning g hs : len (returning g <$> hs) = len hs.
Proof. unfold len. by rewrite length_fmap. Qed.

Lemma returning_handler g c :
  handler (returning_context g c)
  = match handler c with
    | inl e => inl e
    | inr h => inr (returning g h)
    end.
Proof.
  unfold handler, len. simpl. rewrite length_fmap.
  destruct (index c <? _); [|by destruct (index c =? _)].
  destruct (index c <? 0); [done|].
  rewrite list_lookup_fmap. by destruct (handlers c !! _).
Qed.

Lemma returning_call g (r r' : context → Outcome) :
  (∀ c, r' (returning_context g c) = returning_outcome g (r c)) →
  ∀ ops c, call (Next_over r') ops (returning_context g c)
           = returning_outcome g (call (Next_over r) ops c).
Proof.
  intros Hr. induction ops as [|op rest IH]; intros c; [done|].
  destruct op; simpl.
  - rewrite <- IH. f_equal. unfold returning_context, log. simpl.
    by rewrite fmap_app.
  - unfold Next_over at 1 3.
    replace (set_index (index (returning_context g c) + 1)
               (log ENext (returning_context g c)))
      with (returning_context g (set_index (index c + 1) (log ENext c))).
    2: { unfold returning_context, log, set_index. simpl.
         by rewrite fmap_app. }
    rewrite Hr. destruct (r _); simpl; [apply IH|done|done].
  - rewrite <- IH. f_equal. unfold returning_context, sink. simpl.
    by rewrite fmap_app.
  - rewrite <- IH. f_equal. unfold returning_context, sink. simpl.
    by rewrite fmap_app.
  - by rewrite <- IH.
  - done.
Qed.

(** C4, as the code has it: the loop drops what a handler returns.  It
    does not call the return handler, so a request runs the same way,
    with the same calls on the response writer, the same cursor and the
    same container, whatever the handlers of the chain return. *)
Theorem run_discards_results
  (g : Handler → list reflect.Value) (fuel : nat) (c : context) :
  run fuel (returning_context g c) = returning_outcome g (run fuel c).
Proof.
  revert c. induction fuel as [|fuel IH]; intros c; simpl.
  - rewrite len_returning. by destruct (index c <=? _).
  - rewrite len_returning. destruct (index c <=? _); [|done].
    rewrite returning_handler. destruct (handler c) as [e|h]; [done|].
    unfold Invoke. simpl.
    destruct (inject.resolve _ _); [done|].
    replace (log (EInvoke (index c) (returning g h)) (returning_context g c))
      with (returning_context g (log (EInvoke (index c) h) c)).
    2: { unfold returning_context, log. simpl. by rewrite fmap_app. }
    rewrite (returning_call g (run fuel) (run fuel) IH).
    destruct (call _ _ _) as [c1|e c1|]; simpl; [|done|done].
    change (Written (set_index (index c1 + 1) (returning_context g c1)))
      with (Written c1).
    change (Written (set_index (index c1 + 1) c1)) with (Written c1).
    destruct (Written c1); [done|]. apply (IH (set_index (index c1 + 1) c1)).
Qed.

(** C4 as stated fails: a request whose action returns the string [hi]
    and writes nothing itself ends with no call made on the response
    writer, where the loop of the specification has the body written. *)
Lemma results_not_interpreted :
  (∃ c', run 1 (fresh [] (mkHandler [] [] [reflect.OfString "hi"]))
         = Returned c' ∧ calls (rw c') = [])
  ∧ (∃ c', run_as_specified 1
             (fresh [] (mkHandler [] [] [reflect.OfString "hi"]))
           = Returned c' ∧ calls (rw c') = [CallWrite [x68; x69]]).
Proof.
  split; eexists; (split; [vm_compute; reflexivity|reflexivity]).
Qed.

(** ** More on the default return handler *)

(** X1: with the response writer mapped, the default return handler
    never panics and, whatever the values, makes exactly one [Write],
    preceded by at most one [WriteHeader]; the response is written
    afterwards and nothing else of the context has changed.  With no
    mapping for [http.ResponseWriter] it panics before any call. *)
Theorem defaultReturnHandler_one_write
  (ctx : context) (vals : list reflect.Value) :
  (has_sink ctx →
   ∃ c' status b,
     defaultReturnHandler ctx vals = Returned c'
     ∧ calls (rw c') = calls (rw ctx) ++ status ++ [CallWrite b]
     ∧ (status = [] ∨ ∃ n, status = [CallWriteHeader n])
     ∧ Written c' = true
     ∧ index c' = index ctx ∧ Injector c' = Injector ctx
     ∧ handlers c' = handlers ctx ∧ action c' = action ctx)
  ∧ (inject.Get (Injector ctx) ty_ResponseWriter = None →
     defaultReturnHandler ctx vals = Panicked NoResponseWriter ctx).
Proof.
  split.
  - unfold has_sink, defaultReturnHandler. intros ->.
    destruct ((1 <? Z.of_nat (length vals))
              && reflect.Kind_eqb (reflect.kind (nth 0 vals reflect.Zero))
                                  reflect.Int).
    + destruct (isByteSlice _); eexists _, [_], _;
        (split; [reflexivity|]); simpl; rewrite <- app_assoc;
        (repeat split; eauto using Written_sink).
    + destruct (0 <? Z.of_nat (length vals)); destruct (isByteSlice _);
        eexists _, [], _; (split; [reflexivity|]); simpl;
        (repeat split; eauto using Written_sink).
  - unfold defaultReturnHandler. by intros ->.
Qed.

Lemma defaultReturnHandler_one_write_witness :
  ∃ c' status b,
    defaultReturnHandler (fresh [] (plain []))
                         [reflect.OfInt 201; reflect.OfBytes [x68]]
    = Returned c'
    ∧ calls (rw c') = calls (rw (fresh [] (plain []))) ++ status ++ [CallWrite b]
    ∧ (status = [] ∨ ∃ n, status = [CallWriteHeader n]).
Proof.
  destruct (defaultReturnHandler_one_write (fresh [] (plain []))
              [reflect.OfInt 201; reflect.OfBytes [x68]])
    as [H _].
  destruct (H (has_sink_createContext _ _ _))
    as (c' & status & b & H1 & H2 & H3 & _).
  exists c', status, b. auto.
Defined.

(** X2: given an [int] and at least one more value, the default return
    handler calls [WriteHeader] with the int and then writes the body of
    the second value; values after the second are ignored. *)
Theorem defaultReturnHandler_status_then_body
  (ctx : context) (n : Z) (v : reflect.Value) (rest : list reflect.Value) :
  has_sink ctx →
  defaultReturnHandler ctx (reflect.OfInt n :: v :: rest)
  = Returned (sink (CallWrite (rendered v)) (sink (CallWriteHeader n) ctx)).
Proof.
  unfold has_sink, defaultReturnHandler, rendered. intros ->.
  cbn [nth length reflect.kind reflect.Kind_eqb reflect.Int_].
  assert ((1 <? Z.of_nat (S (S (length rest)))) = true) as ->
    by (apply Z.ltb_lt; lia).
  cbn [andb]. cbn beta iota.
  destruct (canDeref v), (isByteSlice _); reflexivity.
Qed.

Lemma defaultReturnHandler_status_then_body_witness :
  defaultReturnHandler (fresh [] (plain []))
    [reflect.OfInt 500; reflect.OfString "boom"; reflect.OfString "extra"]
  = Returned (sink (CallWrite (rendered (reflect.OfString "boom")))
                   (sink (CallWriteHeader 500) (fresh [] (plain [])))).
Proof.
  apply (defaultReturnHandler_status_then_body (fresh [] (plain [])) 500
           (reflect.OfString "boom") [reflect.OfString "extra"]).
  apply has_sink_createContext.
Defined.

(** X3: an [int] returned alone is not a status.  The handler asks for
    more than one value before it reads a status, so no [WriteHeader] is
    called and the body is the text [<int Value>], whatever the int. *)
Theorem defaultReturnHandler_lone_int (ctx : context) (n : Z) :
  has_sink ctx →
  defaultReturnHandler ctx [reflect.OfInt n]
  = Returned (sink (CallWrite (bytes_of_string "<int Value>")) ctx).
Proof. unfold has_sink, defaultReturnHandler. intros ->. reflexivity. Qed.

Lemma defaultReturnHandler_lone_int_witness :
  defaultReturnHandler (fresh [] (plain [])) [reflect.OfInt 404]
  = Returned (sink (CallWrite (bytes_of_string "<int Value>"))
                   (fresh [] (plain []))).
Proof.
  apply (defaultReturnHandler_lone_int (fresh [] (plain [])) 404).
  apply has_sink_createContext.
Defined.

(** X4: the response value is dereferenced once and no further.  A
    pointer to, or an interface holding, a value that is not itself a
    pointer or interface is written as that value is; a pointer to a
    pointer or interface is written as the type of the inner one, its
    contents unread. *)
Theorem rendered_deref_once (ty : string) (v : reflect.Value) :
  (canDeref v = false →
   rendered (reflect.OfPtr ty v) = rendered v
   ∧ rendered (reflect.OfInterface ty v) = rendered v)
  ∧ (canDeref v = true →
     rendered (reflect.OfPtr ty v)
     = bytes_of_string ("<" +:+ reflect.type_name v +:+ " Value>")
     ∧ rendered (reflect.OfInterface ty v)
       = bytes_of_string ("<" +:+ reflect.type_name v +:+ " Value>")).
Proof.
  split; intros Hv.
  - unfold rendered. rewrite Hv. by split.
  - destruct v as [| | | | | | |k ?]; try discriminate Hv;
      try (split; reflexivity).
    destruct k; discriminate Hv.
Qed.

Lemma rendered_deref_once_witness :
  (rendered (reflect.OfPtr "*string" (reflect.OfString "hi"))
   = rendered (reflect.OfString "hi")
   ∧ rendered (reflect.OfInterface "error" (reflect.OfString "hi"))
     = rendered (reflect.OfString "hi"))
  ∧ (rendered (reflect.OfPtr "**string"
                 (reflect.OfPtr "*string" (reflect.OfString "hi")))
     = bytes_of_string "<*string Value>").
Proof.
  split.
  - apply (rendered_deref_once "*string" (reflect.OfString "hi")).
    reflexivity.
  - apply (rendered_deref_once "**string"
             (reflect.OfPtr "*string" (reflect.OfString "hi"))).
    reflexivity.
Defined.

(** ** More on the cursor *)

(** X5: [handler()] by cursor value: the slice access panics below 0, the
    middleware at the cursor is picked below len(handlers), the action at
    len(handlers), and past it the invalid-index panic is raised. *)
Theorem handler_by_cursor (c : context) :
  (index c < 0 → handler c = inl IndexOutOfRange)
  ∧ (0 ≤ index c < len (handlers c) →
     ∃ h, handlers c !! Z.to_nat (index c) = Some h ∧ handler c = inr h)
  ∧ (index c = len (handlers c) → handler c = inr (action c))
  ∧ (len (handlers c) < index c → handler c = inl InvalidIndex).
Proof.
  unfold handler. pose proof (len_nonneg (handlers c)) as Hlen.
  repeat split.
  - intros H. assert ((index c <? len (handlers c)) = true) as ->
      by (apply Z.ltb_lt; lia).
    by assert ((index c <? 0) = true) as -> by (apply Z.ltb_lt; lia).
  - intros [H0 HN].
    assert ((index c <? len (handlers c)) = true) as ->
      by (apply Z.ltb_lt; lia).
    assert ((index c <? 0) = false) as -> by (apply Z.ltb_ge; lia).
    destruct (handlers c !! Z.to_nat (index c)) as [h|] eqn:E; [eauto|].
    apply lookup_ge_None in E. unfold len in HN. lia.
  - intros H. rewrite H, Z.ltb_irrefl. by rewrite Z.eqb_refl.
  - intros H. assert ((index c <? len (handlers c)) = false) as ->
      by (apply Z.ltb_ge; lia).
    by assert ((index c =? len (handlers c)) = false) as ->
      by (apply Z.eqb_neq; lia).
Qed.

Lemma handler_by_cursor_witness :
  handler (set_index 5 (fresh [] (plain []))) = inl InvalidIndex.
Proof.
  apply (handler_by_cursor (set_index 5 (fresh [] (plain [])))).
  by vm_compute.
Defined.

(** X6: [Next()] called when the cursor is at the action or past it only
    advances the cursor: the loop it re-enters finds nothing to do, calls
    no handler and returns, whatever the fuel. *)
Theorem Next_past_the_end (fuel : nat) (c : context) :
  len (handlers c) ≤ index c →
  Next fuel c = Returned (set_index (index c + 1) (log ENext c)).
Proof.
  intros H. unfold Next, Next_over.
  assert ((index c + 1 <=? len (handlers c)) = false) as Hg
    by (apply Z.leb_gt; lia).
  destruct fuel; simpl; by rewrite Hg.
Qed.

Lemma Next_past_the_end_witness :
  Next 0 (set_index 1 (fresh [plain []] (plain [CallNext])))
  = Returned (set_index (1 + 1)
                (log ENext (set_index 1 (fresh [plain []] (plain [CallNext]))))).
Proof.
  apply (Next_past_the_end 0
           (set_index 1 (fresh [plain []] (plain [CallNext])))).
  by vm_compute.
Defined.

(** ** What every run keeps *)

Lemma chain_lookup_elem c h :
  handler c = inr h → h ∈ chain c.
Proof.
  intros Hh. apply handler_inr in Hh as [_ Hh].
  by eapply list_elem_of_lookup_2.
Qed.

Lemma chain_same c0 c :
  handlers c = handlers c0 → action c = action c0 → chain c = chain c0.
Proof. unfold chain. by intros -> ->. Qed.

Lemma safe_chain_elem c h :
  safe_chain c = true → h ∈ chain c →
  forallb calm (body h) = true ∧ resolvable (Injector c) h.
Proof.
  unfold safe_chain. rewrite forallb_forall. intros Hall Hin.
  apply list_elem_of_In, Hall in Hin. apply andb_prop in Hin as [Hc Hr].
  split; [done|]. intros p Hp. rewrite forallb_forall in Hr.
  apply list_elem_of_In, Hr in Hp. unfold resolves in Hp.
  by destruct (inject.Get (Injector c) p).
Qed.

Lemma safe_inv_step c0 op rest c c' :
  handlers c' = handlers c → action c' = action c → index c' = index c →
  (∀ h, resolvable (Injector c) h → resolvable (Injector c') h) →
  safe_inv c0 (op :: rest) c → safe_inv c0 rest c'.
Proof.
  unfold safe_inv. intros -> -> -> Hres (? & ? & ? & Hr & Hc).
  simpl in Hc. apply andb_prop in Hc as [_ Hc].
  repeat split; try done. intros h Hh. by apply Hres, Hr.
Qed.

(** Over a chain in which nothing panics and every parameter resolves,
    the loop does not panic. *)
Lemma run_safe fuel c0 c :
  safe_chain c0 = true →
  safe_inv c0 [] c →
  sat (safe_inv c0 []) (λ _ _, False) (run fuel c).
Proof.
  intros Hsafe. revert c.
  apply run_rule with (B := safe_inv c0).
  - by intros c HP _.
  - intros c e (? & ? & ? & _) HN He. apply handler_inl in He; lia.
  - intros c h ty (Hh & Ha & _ & Hr & _) Hc Hty.
    apply chain_lookup_elem in Hc. rewrite (chain_same c0 c Hh Ha) in Hc.
    destruct (resolve_inr (Injector c) (params h)) as [vs Hvs];
      [by apply Hr|congruence].
  - intros c h vs (Hh & Ha & ? & Hr & _) Hc _.
    apply chain_lookup_elem in Hc. rewrite (chain_same c0 c Hh Ha) in Hc.
    destruct (safe_chain_elem _ _ Hsafe Hc) as [Hcalm _].
    by repeat split.
  - intros x rest c. by apply safe_inv_step.
  - intros b rest c. by apply safe_inv_step.
  - intros code rest c. by apply safe_inv_step.
  - intros v key rest c. apply safe_inv_step; try done.
    intros h Hr p Hp. apply Get_MapTo_is_Some. by apply Hr.
  - by intros msg rest c (_ & _ & _ & _ & Hc).
  - intros rest c (? & ? & ? & ? & _). repeat split; try done. simpl. lia.
  - intros rest c c' (_ & _ & _ & _ & Hc) (? & ? & ? & ? & _).
    simpl in Hc. by repeat split.
  - intros c (? & ? & ? & ? & _) _. repeat split; try done. simpl. lia.
  - intros c (? & ? & ? & ? & _) _. repeat split; try done. simpl. lia.
Qed.

Lemma safe_inv_start c :
  0 ≤ index c → safe_chain c = true → safe_inv c [] c.
Proof.
  intros H0 Hsafe. repeat split; try done.
  intros h Hh. by apply (safe_chain_elem c h Hsafe).
Qed.

(** X7: a request panics only through a handler that panics or a
    parameter that has no mapping.  Over a chain in which no body panics
    and every parameter resolves in the context's container, the loop
    returns, whatever is written and however often [Next()] is called. *)
Theorem run_returns_when_safe (fuel : nat) (c : context) :
  0 ≤ index c → safe_chain c = true → enough fuel c →
  ∃ c', run fuel c = Returned c'.
Proof.
  intros H0 Hsafe Hf.
  pose proof (run_settled fuel c Hf) as Hs.
  pose proof (run_safe fuel c c Hsafe (safe_inv_start c H0 Hsafe)) as Hr.
  destruct (run fuel c) as [c'|e c'|]; simpl in *; [eauto|done|done].
Qed.

Lemma run_returns_when_safe_witness :
  ∃ c', run 3 (fresh [Logger; plain [WriteHeader 204; CallNext]]
                     (plain [Write [x68]])) = Returned c'.
Proof.
  apply (run_returns_when_safe 3
           (fresh [Logger; plain [WriteHeader 204; CallNext]]
                  (plain [Write [x68]]))); by vm_compute.
Defined.

Lemma full_inv_same b c0 c c' :
  handlers c' = handlers c → action c' = action c → index c' = index c →
  rw c' = rw c → invokes (trace c') = invokes (trace c) →
  full_inv b c0 c → full_inv b c0 c'.
Proof.
  unfold full_inv, Written. by intros -> -> -> -> ->.
Qed.

Lemma full_inv_sink b call c0 c :
  full_inv b c0 c → full_inv b c0 (sink call c).
Proof.
  intros (? & ? & ? & _). repeat split; try done.
  rewrite Written_sink. done.
Qed.

(** While nothing is written the loop calls the chain in order, and it
    returns unwritten only past the end. *)
Lemma run_full fuel c0 c :
  0 ≤ index c0 →
  full_inv true c0 c →
  sat (λ c', full_inv true c0 c'
             ∧ (Written c' = false → len (handlers c0) < index c'))
      (λ _ _, True) (run fuel c).
Proof.
  intros H0. revert c.
  apply run_rule with (B := λ _, full_inv false c0).
  - intros c HP Hlt. split; [done|]. by destruct HP as (<- & _).
  - done.
  - done.
  - intros c h vs (Hh & Ha & Hi & Ht) Hc _.
    apply handler_inr in Hc as [_ Hc]. rewrite (chain_same c0 c Hh Ha) in Hc.
    repeat split; try done. intros Hw. simpl.
    rewrite invokes_app, (Ht Hw), <- app_assoc. f_equal.
    symmetry. apply span_snoc; [lia|done].
  - intros x rest c. apply full_inv_same; try done.
    simpl. by apply invokes_snoc_quiet.
  - intros b rest c. apply full_inv_sink.
  - intros code rest c. apply full_inv_sink.
  - intros v key rest c. by apply full_inv_same.
  - done.
  - intros rest c (? & ? & ? & Ht).
    split; [done|]. split; [done|]. split; [simpl; lia|].
    intros Hw. simpl. rewrite invokes_snoc_quiet by done. by apply Ht.
  - intros rest c c' _ [(? & ? & ? & Ht) Hlt].
    split; [done|]. split; [done|]. split; [done|].
    intros Hw. rewrite (Ht Hw). f_equal. specialize (Hlt Hw).
    rewrite !span_full; try done; rewrite chain_length; lia.
  - intros c (? & ? & ? & Ht) Hw.
    change (Written (set_index (index c + 1) c)) with (Written c).
    split; [|congruence].
    split; [done|]. split; [done|]. split; [simpl; lia|].
    change (Written (set_index (index c + 1) c)) with (Written c). congruence.
  - intros c (? & ? & ? & Ht) Hw.
    split; [done|]. split; [done|]. split; [simpl; lia|].
    intros _. by apply Ht.
Qed.

Lemma full_inv_start c : full_inv true c c.
Proof.
  split; [done|]. split; [done|]. split; [lia|].
  intros _. by rewrite span_nil, app_nil_r.
Qed.

(** X8: over a chain in which no body panics and every parameter
    resolves, so that no panic arises for any handler to catch, the loop
    returns, and if it returns with no response written it has called
    every handler from the cursor it started at, the action included,
    each once and in order, and the cursor is then past the chain.  So a
    loop that returned before the end of the chain has a written
    response. *)
Theorem unwritten_return_ran_all (fuel : nat) (c : context) :
  0 ≤ index c → safe_chain c = true → enough fuel c →
  ∃ c', run fuel c = Returned c'
        ∧ (Written c' = false →
           invokes (trace c')
           = invokes (trace c)
             ++ drop (Z.to_nat (index c)) (indexed 0 (chain c))
           ∧ len (handlers c) < index c')
        ∧ (index c' ≤ len (handlers c) → Written c' = true).
Proof.
  intros H0 Hsafe Hf.
  pose proof (run_settled fuel c Hf) as Hs.
  pose proof (run_safe fuel c c Hsafe (safe_inv_start c H0 Hsafe)) as Hnp.
  pose proof (run_full fuel c c H0 (full_inv_start c)) as Hr.
  destruct (run fuel c) as [c'|e c'|]; simpl in Hs, Hnp, Hr; [|done|done].
  destruct Hr as [(_ & _ & _ & Ht) Hlt].
  exists c'. split; [done|]. split.
  - intros Hw. split; [|by apply Hlt].
    rewrite (Ht Hw). f_equal. apply span_full; [done|].
    rewrite chain_length. specialize (Hlt Hw). lia.
  - intros Hle. destruct (Written c') eqn:Hw; [done|].
    specialize (Hlt eq_refl). lia.
Qed.

Lemma unwritten_return_ran_all_witness :
  ∃ c', run 3 (fresh [Logger; plain [CallNext; CallNext]] (plain [])) =
        Returned c'
        ∧ (Written c' = false →
           invokes (trace c')
           = invokes (trace (fresh [Logger; plain [CallNext; CallNext]]
                                   (plain [])))
             ++ drop (Z.to_nat
                        (index (fresh [Logger; plain [CallNext; CallNext]]
                                      (plain []))))
                     (indexed 0 (chain (fresh [Logger;
                                               plain [CallNext; CallNext]]
                                              (plain []))))
           ∧ len (handlers (fresh [Logger; plain [CallNext; CallNext]]
                                  (plain []))) < index c').
Proof.
  destruct (unwritten_return_ran_all 3
              (fresh [Logger; plain [CallNext; CallNext]] (plain [])))
    as (c' & H1 & H2 & _).
  - by vm_compute.
  - reflexivity.
  - by vm_compute.
  - exists c'. auto.
Defined.

Lemma from_chain_same c0 c c' :
  handlers c' = handlers c → action c' = action c →
  invokes (trace c') = invokes (trace c) →
  from_chain c0 c → from_chain c0 c'.
Proof. unfold from_chain. by intros -> -> ->. Qed.

(** Whatever is called is called from the chain, at its own place. *)
Lemma run_from_chain fuel c0 c :
  from_chain c0 c →
  sat (from_chain c0) (λ _, from_chain c0) (run fuel c).
Proof.
  revert c. apply run_rule with (B := λ _, from_chain c0).
  - done.
  - done.
  - done.
  - intros c h vs (Hh & Ha & Hall) Hc _.
    apply handler_inr in Hc as [[H0 _] Hc].
    rewrite (chain_same c0 c Hh Ha) in Hc.
    split; [done|]. split; [done|]. intros i h'. simpl.
    rewrite invokes_app. intros [Hin|Hin]%elem_of_app; [by apply Hall|].
    apply list_elem_of_singleton in Hin. by inversion Hin; subst.
  - intros x rest c. apply from_chain_same; try done.
    simpl. by apply invokes_snoc_quiet.
  - intros b rest c. apply from_chain_same; try done.
    simpl. by apply invokes_snoc_quiet.
  - intros code rest c. apply from_chain_same; try done.
    simpl. by apply invokes_snoc_quiet.
  - intros v key rest c. by apply from_chain_same.
  - done.
  - intros rest c. apply from_chain_same; try done.
    simpl. by apply invokes_snoc_quiet.
  - done.
  - intros c HB _. revert HB. by apply from_chain_same.
  - intros c HB _. revert HB. by apply from_chain_same.
Qed.

Lemma StronglySorted_lt_NoDup (l : list Z) : StronglySorted Z.lt l → NoDup l.
Proof.
  induction 1 as [|x l Hl IH Hx]; constructor; [|done].
  intros Hin. rewrite Forall_forall in Hx. specialize (Hx _ Hin). lia.
Qed.

(** X9: in any request, whatever the handlers do, a handler that is
    called at cursor [i] is the element of the chain at place [i] (the
    middleware registered [i]-th, or the action at len(handlers)), and no
    place of the chain is called twice. *)
Theorem invoked_from_chain_once (fuel : nat) (c : context) :
  0 ≤ index c → trace c = [] → enough fuel c →
  match run fuel c with
  | Returned c' | Panicked _ c' =>
      (∀ i h, (i, h) ∈ invokes (trace c') →
              0 ≤ i ≤ len (handlers c) ∧ chain c !! Z.to_nat i = Some h)
      ∧ NoDup (cursors (trace c'))
  | OutOfFuel => False
  end.
Proof.
  intros H0 Ht Hf.
  pose proof (run_settled fuel c Hf) as Hs.
  assert (from_chain c c) as HP.
  { split; [done|]. split; [done|]. rewrite Ht. intros i h Hin.
    by apply elem_of_nil in Hin. }
  pose proof (run_from_chain fuel c c HP) as Hr.
  assert (cursor_inv true c c) as HP'.
  { unfold cursor_inv. rewrite Ht. repeat split; try done; constructor. }
  pose proof (run_cursor_inv fuel c c H0 HP') as Hc.
  assert (∀ b c', from_chain c c' → cursor_inv b c c' →
            (∀ i h, (i, h) ∈ invokes (trace c') →
                    0 ≤ i ≤ len (handlers c) ∧ chain c !! Z.to_nat i = Some h)
            ∧ NoDup (cursors (trace c'))) as Hfin.
  { intros b c' (_ & _ & Hall) (_ & _ & Hsorted & Hrange). split.
    - intros i h Hin. destruct (Hall i h Hin) as [? Hl]. split; [|done].
      rewrite Forall_forall in Hrange.
      assert (i ∈ cursors (trace c')) as Hi.
      { unfold cursors. apply list_elem_of_fmap. by exists (i, h). }
      by destruct (Hrange _ Hi).
    - by apply StronglySorted_lt_NoDup. }
  destruct (run fuel c) as [c'|e c'|]; simpl in *; [| |done].
  - destruct Hc as [Hc _]. by eapply Hfin.
  - destruct Hc as [Hc _]. by eapply Hfin.
Qed.

Lemma invoked_from_chain_once_witness :
  match run 3 (fresh [plain [CallNext; CallNext]; plain [Write [x68]]]
                     (plain [Panic "never"])) with
  | Returned c' | Panicked _ c' =>
      (∀ i h, (i, h) ∈ invokes (trace c') →
              0 ≤ i ≤ len (handlers
                             (fresh [plain [CallNext; CallNext];
                                     plain [Write [x68]]]
                                    (plain [Panic "never"])))
              ∧ chain (fresh [plain [CallNext; CallNext]; plain [Write [x68]]]
                             (plain [Panic "never"])) !! Z.to_nat i = Some h)
      ∧ NoDup (cursors (trace c'))
  | OutOfFuel => False
  end.
Proof.
  apply (invoked_from_chain_once 3
           (fresh [plain [CallNext; CallNext]; plain [Write [x68]]]
                  (plain [Panic "never"]))).
  - by vm_compute.
  - reflexivity.
  - by vm_compute.
Defined.

Lemma silent_chain_elem c h :
  silent_chain c = true → h ∈ chain c → forallb silent (body h) = true.
Proof.
  unfold silent_chain. rewrite forallb_forall. intros Hall Hin.
  by apply list_elem_of_In, Hall in Hin.
Qed.

Lemma untouched_step c0 op rest c c' :
  handlers c' = handlers c → action c' = action c → rw c' = rw c →
  untouched c0 (op :: rest) c → untouched c0 rest c'.
Proof.
  unfold untouched. intros -> -> -> (? & ? & ? & Hs).
  simpl in Hs. apply andb_prop in Hs as [_ Hs]. done.
Qed.

(** Over a chain that does not touch the writer, neither does the loop. *)
Lemma run_untouched fuel c0 c :
  silent_chain c0 = true →
  untouched c0 [] c →
  sat (untouched c0 []) (λ _, untouched c0 []) (run fuel c).
Proof.
  intros Hsilent. revert c.
  apply run_rule with (B := untouched c0).
  - done.
  - done.
  - done.
  - intros c h vs (Hh & Ha & Hrw & _) Hc _.
    apply chain_lookup_elem in Hc. rewrite (chain_same c0 c Hh Ha) in Hc.
    split; [done|]. split; [done|]. split; [done|].
    by apply silent_chain_elem with c0.
  - intros x rest c. by apply untouched_step.
  - by intros b rest c (_ & _ & _ & Hs).
  - by intros code rest c (_ & _ & _ & Hs).
  - intros v key rest c. by apply untouched_step.
  - by intros msg rest c (? & ? & ? & _).
  - by intros rest c (? & ? & ? & _).
  - intros rest c c' (_ & _ & _ & Hs) (? & ? & ? & _).
    simpl in Hs. done.
  - by intros c (? & ? & ? & _) _.
  - by intros c (? & ? & ? & _) _.
Qed.

(** X10: the loop itself never touches the response writer.  Over a
    chain in which no body writes or sets a status, the writer is, when
    the loop returns or panics, exactly what it was, whatever the
    handlers return and whether or not their parameters resolve. *)
Theorem run_leaves_writer_alone (fuel : nat) (c : context) :
  silent_chain c = true → enough fuel c →
  match run fuel c with
  | Returned c' | Panicked _ c' => rw c' = rw c
  | OutOfFuel => False
  end.
Proof.
  intros Hsilent Hf.
  pose proof (run_settled fuel c Hf) as Hs.
  pose proof (run_untouched fuel c c Hsilent) as Hr.
  specialize (Hr ltac:(by repeat split)).
  destruct (run fuel c) as [c'|e c'|]; simpl in *; [| |done];
    by destruct Hr as (_ & _ & ? & _).
Qed.

Lemma run_leaves_writer_alone_witness :
  match run 2 (fresh [mkHandler [] [CallNext; Panic "late"]
                                [reflect.OfString "ignored"]]
                     (mkHandler [] [] [reflect.OfInt 500])) with
  | Returned c' | Panicked _ c' =>
      rw c' = rw (fresh [mkHandler [] [CallNext; Panic "late"]
                                   [reflect.OfString "ignored"]]
                        (mkHandler [] [] [reflect.OfInt 500]))
  | OutOfFuel => False
  end.
Proof.
  apply (run_leaves_writer_alone 2
           (fresh [mkHandler [] [CallNext; Panic "late"]
                             [reflect.OfString "ignored"]]
                  (mkHandler [] [] [reflect.OfInt 500]))); by vm_compute.
Defined.

(** ** The logger middleware *)

Lemma extends_snoc c0 c c' e :
  trace c' = trace c ++ [e] → extends c0 c → extends c0 c'.
Proof.
  unfold extends. intros -> [t ->]. exists (t ++ [e]). by rewrite app_assoc.
Qed.

Lemma extends_same c0 c c' :
  trace c' = trace c → extends c0 c → extends c0 c'.
Proof. unfold extends. by intros ->. Qed.

(** The loop only ever adds to the trace. *)
Lemma run_extends fuel c0 c :
  extends c0 c → sat (extends c0) (λ _, extends c0) (run fuel c).
Proof.
  revert c. apply run_rule with (B := λ _, extends c0).
  - done.
  - done.
  - done.
  - intros c h vs HP _ _. by eapply extends_snoc.
  - intros x rest c. by apply extends_snoc with (EWork x).
  - intros b rest c. by apply extends_snoc with (ESink (CallWrite b)).
  - intros code rest c.
    by apply extends_snoc with (ESink (CallWriteHeader code)).
  - intros v key rest c. by apply extends_same.
  - done.
  - intros rest c. by apply extends_snoc with ENext.
  - done.
  - intros c HB _. revert HB. by apply extends_same.
  - intros c HB _. revert HB. by apply extends_same.
Qed.

(** One turn of the loop on a handler whose parameters resolve. *)
Lemma run_step fuel c h vs :
  handler c = inr h →
  inject.resolve (Injector c) (params h) = inr vs →
  run (S fuel) c
  = match call (Next_over (run fuel)) (body h) (log (EInvoke (index c) h) c)
    with
    | Returned c1 =>
        if Written c1 then Returned (set_index (index c1 + 1) c1)
        else run fuel (set_index (index c1 + 1) c1)
    | Panicked e c' => Panicked e c'
    | OutOfFuel => OutOfFuel
    end.
Proof.
  intros Hh Hr. pose proof (handler_inr _ _ Hh) as [[_ HN] _].
  apply Z.leb_le in HN. simpl. rewrite HN, Hh. unfold Invoke. rewrite Hr.
  by destruct (call _ _ _).
Qed.

Lemma run_past_end fuel c :
  len (handlers c) < index c → run fuel c = Returned c.
Proof.
  intros H. apply Z.leb_gt in H. destruct fuel; simpl; by rewrite H.
Qed.

(** X11: the logger middleware brackets the request.  Registered first,
    over a chain in which no body panics and every parameter resolves,
    it is called at cursor 0, logs the start, calls [Next()], and logs
    the completion as the very last event of the request, after
    everything the rest of the chain did, whether or not a later handler
    wrote the response and stopped the loop early. *)
Theorem Logger_brackets_request
  (fuel : nat) (m : Martini) (res : string) (req : Request)
  (hs : list Handler) :
  m_handlers m = Logger :: hs →
  safe_chain (createContext m res req) = true →
  enough fuel (createContext m res req) →
  ∃ c' t, ServeHTTP fuel m res req = Returned c'
          ∧ trace c'
            = [EInvoke 0 Logger; EWork "Started"; ENext] ++ t
              ++ [EWork "Completed"].
Proof.
  intros Hm Hsafe Hf. unfold ServeHTTP.
  set (c0 := createContext m res req) in *.
  assert (handlers c0 = Logger :: hs) as Hhs by exact Hm.
  assert (index c0 = 0) as Hi0 by reflexivity.
  assert (trace c0 = []) as Ht0 by reflexivity.
  destruct fuel as [|f].
  { unfold enough in Hf. pose proof (len_nonneg (handlers c0)). lia. }
  assert (handler c0 = inr Logger) as Hh.
  { unfold handler. rewrite Hhs. reflexivity. }
  destruct (safe_chain_elem c0 Logger Hsafe (chain_lookup_elem _ _ Hh))
    as [_ Hres].
  destruct (resolve_inr _ _ Hres) as [vs Hvs].
  rewrite (run_step f c0 Logger vs Hh Hvs).
  change (body Logger) with [Work "Started"; CallNext; Work "Completed"].
  cbn [call]. unfold Next_over at 1.
  set (c3 := set_index _ (log ENext (log (EWork "Started") _))).
  assert (enough f c3) as Hf3.
  { unfold enough in *. change (handlers c3) with (handlers c0).
    change (index c3) with (index c0 + 1). lia. }
  pose proof (run_settled f c3 Hf3) as Hs.
  assert (0 ≤ index c3) as Hi3
    by (change (index c3) with (index c0 + 1); lia).
  assert (safe_inv c0 [] c3) as Hinv.
  { split; [done|]. split; [done|]. split; [done|].
    split; [|done]. intros h Hin. by apply (safe_chain_elem c0 h Hsafe). }
  pose proof (run_safe f c0 c3 Hsafe Hinv) as Hnp.
  pose proof (run_extends f c3 c3 ltac:(by exists [])) as Hext.
  pose proof (run_full f c3 c3 Hi3 (full_inv_start c3)) as Hfull.
  destruct (run f c3) as [c4|e c4|]; simpl in Hs, Hnp, Hext, Hfull;
    [|done|done].
  destruct Hext as [t Ht]. destruct Hfull as [_ Hpast].
  change (handlers c3) with (handlers c0) in Hpast.
  destruct Hs as (_ & _ & Hh4 & _).
  change (handlers c3) with (handlers c0) in Hh4.
  set (c5 := log (EWork "Completed") c4).
  change (Written c5) with (Written c4).
  assert (trace (set_index (index c5 + 1) c5)
          = [EInvoke 0 Logger; EWork "Started"; ENext] ++ t
            ++ [EWork "Completed"]) as Htr.
  { simpl. rewrite Ht. change (trace c3)
      with (((trace c0 ++ [EInvoke (index c0) Logger]) ++ [EWork "Started"])
            ++ [ENext]).
    rewrite Ht0, Hi0. reflexivity. }
  destruct (Written c4) eqn:Hw.
  - eauto.
  - rewrite run_past_end; [eauto|].
    change (len (handlers c4) < index c4 + 1).
    rewrite Hh4. specialize (Hpast eq_refl).
    change (handlers c0) with (m_handlers m). lia.
Qed.

Lemma Logger_brackets_request_witness :
  ∃ c' t, ServeHTTP 3 (Action (plain [Work "act"])
                        (Handlers [Logger; plain [Write [x68]]] New))
                    "w" GET_root = Returned c'
          ∧ trace c'
            = [EInvoke 0 Logger; EWork "Started"; ENext] ++ t
              ++ [EWork "Completed"].
Proof.
  apply (Logger_brackets_request 3
           (Action (plain [Work "act"])
              (Handlers [Logger; plain [Write [x68]]] New))
           "w" GET_root [plain [Write [x68]]]).
  - reflexivity.
  - by vm_compute.
  - by vm_compute.
Defined.

(** ** Setting the application up *)

Lemma Use_all_handlers hs m :
  fold_left (λ m h, Use h m) hs m
  = mkMartini (m_Injector m) (m_handlers m ++ hs) (m_action m) (m_logger m).
Proof.
  revert m. induction hs as [|h hs IH]; intros m; simpl.
  - rewrite app_nil_r. by destruct m.
  - rewrite IH. simpl. by rewrite <- app_assoc.
Qed.

Lemma Handlers_eq hs m :
  Handlers hs m = mkMartini (m_Injector m) hs (m_action m) (m_logger m).
Proof. unfold Handlers. by rewrite Use_all_handlers. Qed.

(** X12: [Handlers] sets the whole middleware stack: whatever was
    registered before is gone, the stack is the given handlers in the
    given order, and the container, the action and the logger are not
    touched.  A [Use] after it adds at the end. *)
Theorem Handlers_replaces_stack (hs : list Handler) (m : Martini) :
  Handlers hs m = mkMartini (m_Injector m) hs (m_action m) (m_logger m)
  ∧ (∀ hs0, Handlers hs (Handlers hs0 m) = Handlers hs m)
  ∧ (∀ h, m_handlers (Use h (Handlers hs m)) = hs ++ [h]).
Proof.
  split; [apply Handlers_eq|]. split.
  - intros hs0. by rewrite !Handlers_eq.
  - intros h. by rewrite Handlers_eq.
Qed.

Lemma Use_values_callables hs m :
  Use_values (Func <$> hs) m = Done (fold_left (λ m h, Use h m) hs m).
Proof.
  revert m. induction hs as [|h hs IH]; intros m; simpl; [done|].
  apply IH.
Qed.

(** X13: what is registered must be callable, and it is checked at
    registration.  A value passes [validateHandler] exactly when it is a
    function; nil fails in the nil dereference of its type, before the
    message of [validateHandler].  [Handlers] given functions only does
    what it does on handlers.  Given a value that fails, after functions
    [pre], it panics with the stack already replaced by [pre]; [Use] and
    [Action] check before they assign and leave the application as it
    was. *)
Theorem registration_checks_callable (v : HandlerValue) (m : Martini) :
  (validateHandler v = None ↔ ∃ h, v = Func h)
  ∧ validateHandler Nil = Some NilDereference
  ∧ (∀ hs, Handlers_values (Func <$> hs) m = Done (Handlers hs m))
  ∧ (∀ e, validateHandler v = Some e →
          Use_value v m = Failed e m
          ∧ Action_value v m = Failed e m
          ∧ ∀ pre post,
              Handlers_values ((Func <$> pre) ++ v :: post) m
              = Failed e (Handlers pre m)).
Proof.
  split; [|split; [done|split]].
  - split.
    + destruct v as [|h|k]; [done|eauto|by destruct k].
    + by intros [h ->].
  - intros hs. unfold Handlers_values, Handlers. apply Use_values_callables.
  - intros e He. unfold Use_value, Action_value. rewrite He.
    split; [done|]. split; [done|].
    intros pre post. unfold Handlers_values, Handlers.
    generalize (mkMartini (m_Injector m) [] (m_action m) (m_logger m)).
    induction pre as [|h pre IH]; intros m0; simpl.
    + unfold Use_value. by rewrite He.
    + apply IH.
Qed.

Lemma registration_checks_callable_witness :
  Use_value (Data DString) (Handlers [Logger] New)
  = Failed NotCallable (Handlers [Logger] New)
  ∧ Action_value (Data DString) (Handlers [Logger] New)
    = Failed NotCallable (Handlers [Logger] New)
  ∧ ∀ pre post,
      Handlers_values ((Func <$> pre) ++ Data DString :: post)
                      (Handlers [Logger] New)
      = Failed NotCallable (Handlers pre (Handlers [Logger] New)).
Proof.
  apply (registration_checks_callable (Data DString) (Handlers [Logger] New)).
  reflexivity.
Defined.






(** X15: the address [Run] listens on is [HOST:PORT] from the
    environment, and its port is never empty: a [PORT] that is not set,
    or set to the empty string, gives 3000; any other value is taken as
    it is.  A [HOST] that is not set gives an address that starts with
    the colon. *)
Theorem Run_addr_port (env : gmap string string) :
  ∃ port, Run_addr env = Getenv env "HOST" +:+ ":" +:+ port
          ∧ port ≠ ""
          ∧ (env !! "PORT" = None ∨ env !! "PORT" = Some "" →
             port = "3000")
          ∧ (∀ p, env !! "PORT" = Some p → p ≠ "" → port = p)
          ∧ (env !! "HOST" = None → Run_addr env = ":" +:+ port).
Proof.
  unfold Run_addr, Getenv.
  destruct (env !! "PORT") as [p|] eqn:Ep; simpl.
  - destruct p as [|a p]; simpl.
    + exists "3000". repeat split; try done.
      * by intros p [= <-].
      * by intros ->.
    + exists (String a p). repeat split; try done.
      * by intros [|].
      * by intros p' [= <-].
      * by intros ->.
  - exists "3000". repeat split; try done. by intros ->.
Qed.

Lemma Run_addr_port_witness :
  Run_addr {["PORT" := "8080"]} = ":8080"
  ∧ Run_addr ∅ = ":3000".
Proof.
  split.
  - destruct (Run_addr_port {["PORT" := "8080"]})
      as (port & _ & _ & _ & Hp & Hh).
    rewrite Hh by reflexivity. by rewrite (Hp "8080").
  - destruct (Run_addr_port ∅) as (port & _ & _ & Hp & _ & Hh).
    rewrite Hh by reflexivity. rewrite Hp; [done|by left].
Defined.

(** ** The first write ends the request *)

Lemma stop_inv_step c0 k op rest c c' :
  handlers c' = handlers c → action c' = action c → index c' = index c →
  rw c' = rw c → invokes (trace c') = invokes (trace c) →
  silent op = true →
  stop_inv false c0 k (op :: rest) c → stop_inv false c0 k rest c'.
Proof.
  unfold stop_inv, Written.
  intros -> -> -> -> -> Hop (? & ? & ? & ? & Hst & Hlt & Heq).
  simpl in Hst, Hlt, Heq. rewrite Hop in Hlt, Heq. simpl in Hlt, Heq.
  apply andb_prop in Hst as [_ Hst]. done.
Qed.

Lemma stop_inv_sink c0 k call op rest c :
  silent op = false →
  stop_inv false c0 k (op :: rest) c → stop_inv false c0 k rest (sink call c).
Proof.
  unfold stop_inv. intros Hop (? & ? & Hi & Ht & Hst & Hlt & Heq).
  simpl in Hst, Hlt. rewrite Hop in Hlt. simpl in Hlt.
  apply andb_prop in Hst as [_ Hst].
  split; [done|]. split; [done|]. split; [done|].
  split; [simpl; by rewrite invokes_snoc_quiet|].
  split; [done|]. split.
  - simpl. intros Hlt'. by destruct (Hlt Hlt').
  - intros _. left. apply Written_sink.
Qed.

(** Without [Next()] calls, the loop stops right after the first handler
    that writes. *)
Lemma run_stops fuel c0 k pre w post c :
  0 ≤ index c0 →
  chain c0 = pre ++ w :: post → k = len pre →
  forallb (λ h, forallb silent (body h)) pre = true →
  forallb silent (body w) = false →
  nextless c0 = true →
  stop_inv true c0 k [] c →
  sat (λ c', handlers c' = handlers c0 ∧ Written c' = true
             ∧ index c' = k + 1
             ∧ invokes (trace c')
               = invokes (trace c0) ++ span (chain c0) (index c0) (k + 1))
      (λ _ _, True) (run fuel c).
Proof.
  intros H0 Hchain Hk Hpre Hw Hnl.
  assert (len (handlers c0) + 1 = len pre + 1 + len post) as Hlen.
  { rewrite <- chain_length, Hchain. unfold len.
    rewrite length_app. simpl. lia. }
  pose proof (len_nonneg post) as Hpost.
  revert c. apply run_rule with (B := stop_inv false c0 k).
  - intros c (Hh & _ & Hi & _) Hlt. rewrite Hh in Hlt. lia.
  - done.
  - done.
  - intros c h vs (Hh & Ha & Hi & Ht & Hwr) Hc _.
    pose proof (chain_lookup_elem _ _ Hc) as Hin.
    apply handler_inr in Hc as [_ Hc].
    rewrite (chain_same c0 c Hh Ha) in Hc, Hin.
    split; [done|]. split; [done|]. split; [done|]. split.
    { simpl. rewrite invokes_app, Ht, <- app_assoc. f_equal.
      symmetry. apply span_snoc; [lia|done]. }
    split.
    { unfold nextless in Hnl. rewrite forallb_forall in Hnl.
      by apply Hnl, list_elem_of_In. }
    simpl. change (Written (log (EInvoke (index c) h) c)) with (Written c).
    rewrite Hchain in Hc. split.
    + intros Hlt. split; [|done].
      rewrite lookup_app_l in Hc by (unfold len in Hk; lia).
      rewrite forallb_forall in Hpre.
      apply Hpre, list_elem_of_In. by eapply list_elem_of_lookup_2.
    + intros Heq. right.
      replace (Z.to_nat (index c)) with (length pre) in Hc
        by (unfold len in Hk; lia).
      rewrite list_lookup_middle in Hc by done. by inversion Hc; subst.
  - intros x rest c. apply stop_inv_step; try done.
    simpl. by apply invokes_snoc_quiet.
  - intros b rest c. by apply stop_inv_sink.
  - intros code rest c. by apply stop_inv_sink.
  - intros v key rest c. by apply stop_inv_step.
  - done.
  - by intros rest c (_ & _ & _ & _ & Hst & _).
  - by intros rest c c' (_ & _ & _ & _ & Hst & _).
  - intros c (Hh & Ha & Hi & Ht & _ & Hlt & Heq) Hwr.
    assert (index c = k) as Hik.
    { destruct (Z_lt_le_dec (index c) k) as [Hlt'|]; [|lia].
      destruct (Hlt Hlt') as [_ Hf]. congruence. }
    split; [done|]. split; [done|]. split; [simpl; lia|].
    cbn [trace set_index]. by rewrite Ht, Hik.
  - intros c (Hh & Ha & Hi & Ht & _ & Hlt & Heq) Hwr.
    assert (index c < k) as Hik.
    { destruct (Z_lt_le_dec (index c) k) as [|Hge]; [done|].
      destruct Heq as [Hf|Hf]; [lia|congruence|done]. }
    split; [done|]. split; [done|]. split; [simpl; lia|].
    split; [done|]. exact Hwr.
Qed.

Lemma take_indexed_prefix (pre : list Handler) w post :
  take (S (length pre)) (indexed 0 (pre ++ w :: post))
  = indexed 0 (pre ++ [w]).
Proof.
  replace (pre ++ w :: post) with ((pre ++ [w]) ++ post)
    by (by rewrite <- app_assoc).
  rewrite (indexed_app 0 (pre ++ [w]) post).
  replace (S (length pre)) with (length (indexed 0 (pre ++ [w]))).
  - apply take_app_length.
  - rewrite indexed_length, length_app. simpl. lia.
Qed.

(** X16: the first write ends the request.  Over a chain without
    [Next()] calls in which no body panics and every parameter resolves,
    if the handlers [pre] do not write and the next one, [w], does, then
    serving calls [pre] and [w] in order and nothing after: the loop
    returns with the response written and the cursor just past [w], and
    neither the later middleware nor the action runs. *)
Theorem first_writer_ends_request
  (fuel : nat) (c : context) (pre post : list Handler) (w : Handler) :
  index c = 0 → Written c = false →
  chain c = pre ++ w :: post →
  forallb (λ h, forallb silent (body h)) pre = true →
  forallb silent (body w) = false →
  nextless c = true → safe_chain c = true → enough fuel c →
  ∃ c', run fuel c = Returned c'
        ∧ invokes (trace c') = invokes (trace c) ++ indexed 0 (pre ++ [w])
        ∧ index c' = len pre + 1
        ∧ Written c' = true.
Proof.
  intros Hi Hwr Hchain Hpre Hw Hnl Hsafe Hf.
  pose proof (run_settled fuel c Hf) as Hs.
  pose proof (run_safe fuel c c Hsafe
                (safe_inv_start c ltac:(lia) Hsafe)) as Hnp.
  pose proof (len_nonneg pre) as Hlp.
  assert (stop_inv true c (len pre) [] c) as HP.
  { split; [done|]. split; [done|]. split; [lia|].
    split; [by rewrite span_nil, app_nil_r|done]. }
  pose proof (run_stops fuel c (len pre) pre w post c ltac:(lia) Hchain
                eq_refl Hpre Hw Hnl HP) as Hr.
  destruct (run fuel c) as [c'|e c'|]; simpl in Hs, Hnp, Hr; [|done|done].
  destruct Hr as (_ & Hw' & Hi' & Ht).
  exists c'. repeat split; try done.
  rewrite Ht. f_equal. unfold span. rewrite Hi, Hchain. simpl.
  replace (Z.to_nat (len pre + 1 - 0)) with (S (length pre))
    by (unfold len; lia).
  apply take_indexed_prefix.
Qed.

Lemma first_writer_ends_request_witness :
  ∃ c', run 4 (fresh [plain [Work "auth"]; plain [Write [x68]];
                      plain [Work "skipped"]] (plain [Work "act"]))
        = Returned c'
        ∧ invokes (trace c')
          = [] ++ indexed 0 ([plain [Work "auth"]] ++ [plain [Write [x68]]])
        ∧ index c' = len [plain [Work "auth"]] + 1
        ∧ Written c' = true.
Proof.
  apply (first_writer_ends_request 4
           (fresh [plain [Work "auth"]; plain [Write [x68]];
                   plain [Work "skipped"]] (plain [Work "act"]))
           [plain [Work "auth"]]
           [plain [Work "skipped"]; plain [Work "act"]]
           (plain [Write [x68]])); try reflexivity; by vm_compute.
Defined.

(** ** A failure ends the loop *)










